(** * ddlconvert: Oracle DDL to SQLite DDL

    A shallow embedding of [ddlconvert.py].  The program is a pipeline of
    regular-expression substitutions and string operations, so the
    development has three layers:

    - [Chars]  : Python's character predicates and [str] methods,
    - [Re]     : the fragment of Python's [re] module the program uses, as a
                 backtracking matcher that returns the list of successes in
                 the order the backtracking engine tries them,
    - [Ddl]    : the program itself, function by function.

    [Spec] and [Samples] hold the reference definitions and the inputs the
    statements speak about; the modules after them prove facts about the
    matcher, the whitespace collapse, the header pattern, the item loop and
    the splitter; [Claims] states the properties of the program.

    Text is a list of characters.  The embedding covers ASCII text (code
    points below 128), which is where Python's Unicode-aware predicates and
    case mappings coincide with the definitions below; the remaining values
    of [ascii] are classified as caseless punctuation. *)

From Stdlib Require Import String Ascii.
From Stdlib Require Import List Bool Arith Lia ZArith.
Import ListNotations.

Definition text := list ascii.

(** String literals are written with [T "..."]. *)
Definition T (s : string) : text := list_ascii_of_string s.

Definition dquote : ascii := "034"%char.
Definition newline : ascii := "010"%char.

(* ================================================================== *)
(** ** Characters and [str] methods *)

Module Chars.

Definition code (c : ascii) : nat := nat_of_ascii c.

Definition between (lo hi : nat) (c : ascii) : bool :=
  (lo <=? code c) && (code c <=? hi).

(** [str.isspace] on ASCII: TAB, LF, VT, FF, CR, FS, GS, RS, US, SPACE.
    The same set is what [\s] matches in a [str] pattern. *)
Definition is_space (c : ascii) : bool :=
  between 9 13 c || between 28 32 c.

Definition is_digit (c : ascii) : bool := between 48 57 c.
Definition is_upper (c : ascii) : bool := between 65 90 c.
Definition is_lower (c : ascii) : bool := between 97 122 c.

(** [\w]: alphanumeric or underscore. *)
Definition is_word (c : ascii) : bool :=
  is_upper c || is_lower c || is_digit c || (code c =? 95).

Definition to_upper (c : ascii) : ascii :=
  if is_lower c then ascii_of_nat (code c - 32) else c.

Definition to_lower (c : ascii) : ascii :=
  if is_upper c then ascii_of_nat (code c + 32) else c.

Definition eqc (a b : ascii) : bool := Ascii.eqb a b.

(** [s.upper()] *)
Definition upper (s : text) : text := map to_upper s.

(** [s.lstrip()], [s.rstrip()], [s.strip()] *)
Fixpoint lstrip (s : text) : text :=
  match s with
  | c :: tl => if is_space c then lstrip tl else s
  | [] => []
  end.

Definition rstrip (s : text) : text := rev (lstrip (rev s)).

Definition strip (s : text) : text := rstrip (lstrip s).

(** [s.rstrip(chars)] for a one-character set *)
Fixpoint lstrip_char (x : ascii) (s : text) : text :=
  match s with
  | c :: tl => if eqc c x then lstrip_char x tl else s
  | [] => []
  end.

Definition rstrip_char (x : ascii) (s : text) : text :=
  rev (lstrip_char x (rev s)).

(** [s.replace(x, '')] for a one-character [x] *)
Definition remove_char (x : ascii) (s : text) : text :=
  filter (fun c => negb (eqc c x)) s.

(** [s.split()]: maximal runs of non-whitespace characters. *)
Fixpoint split_ws_aux (cur : text) (s : text) : list text :=
  match s with
  | [] => match cur with [] => [] | _ => [rev cur] end
  | c :: tl =>
      if is_space c
      then match cur with
           | [] => split_ws_aux [] tl
           | _ => rev cur :: split_ws_aux [] tl
           end
      else split_ws_aux (c :: cur) tl
  end.

Definition split_ws (s : text) : list text := split_ws_aux [] s.

(** [sep.join(l)] *)
Fixpoint join (sep : text) (l : list text) : text :=
  match l with
  | [] => []
  | [x] => x
  | x :: tl => x ++ sep ++ join sep tl
  end.

(** [p] is a prefix of [s] *)
Fixpoint starts_with (p s : text) : bool :=
  match p, s with
  | [], _ => true
  | a :: p', b :: s' => eqc a b && starts_with p' s'
  | _ :: _, [] => false
  end.

(** [p in s] *)
Fixpoint contains (p s : text) : bool :=
  starts_with p s ||
  match s with
  | [] => false
  | _ :: tl => contains p tl
  end.

(** [s.find(x)] and [s.rfind(x)] for a one-character [x]; -1 when absent. *)
Fixpoint find_from (x : ascii) (s : text) (i : Z) : Z :=
  match s with
  | [] => (-1)%Z
  | c :: tl => if eqc c x then i else find_from x tl (i + 1)%Z
  end.

Definition find (x : ascii) (s : text) : Z := find_from x s 0%Z.

Fixpoint rfind_from (x : ascii) (s : text) (i : Z) (best : Z) : Z :=
  match s with
  | [] => best
  | c :: tl => rfind_from x tl (i + 1)%Z (if eqc c x then i else best)
  end.

Definition rfind (x : ascii) (s : text) : Z := rfind_from x s 0%Z (-1)%Z.

(** [s[a:b]] with Python's treatment of negative and out-of-range bounds. *)
Definition clamp_index (len i : Z) : Z :=
  if (i <? 0)%Z then Z.max 0 (len + i) else Z.min i len.

Definition slice (a b : Z) (s : text) : text :=
  let len := Z.of_nat (length s) in
  let a' := clamp_index len a in
  let b' := clamp_index len b in
  firstn (Z.to_nat (b' - a')) (skipn (Z.to_nat a') s).

End Chars.

(* ================================================================== *)
(** ** The fragment of Python's [re] the program uses *)

Module Re.
Import Chars.

(** Compilation flags: [re.IGNORECASE], [re.MULTILINE], [re.DOTALL]. *)
Record flags := Flags { ignorecase : bool; multiline : bool; dotall : bool }.

Definition no_flags := Flags false false false.
Definition I := Flags true false false.
Definition M := Flags false true false.
Definition S_ := Flags false false true.

(** One-character matchers: a literal, [.], [\w], [\s], [\d], a negated
    class [[^...]] and a class [[...]] built by union. *)
Inductive cset :=
| CChr (c : ascii)
| CDot
| CWord
| CSpace
| CDigit
| CNot (a : cset)
| CUnion (a b : cset).

Fixpoint cset_mem (fl : flags) (cs : cset) (c : ascii) : bool :=
  match cs with
  | CChr x => if ignorecase fl then eqc (to_lower c) (to_lower x) else eqc c x
  | CDot => dotall fl || negb (eqc c newline)
  | CWord => is_word c
  | CSpace => is_space c
  | CDigit => is_digit c
  | CNot a => negb (cset_mem fl a c)
  | CUnion a b => cset_mem fl a c || cset_mem fl b c
  end.

(** Patterns.  Every repetition in the program's patterns is over a
    one-character matcher, so [Quant] carries a [cset]: [Quant cs lo hi g]
    is [cs{lo,hi}], greedy when [g] and lazy otherwise, unbounded when [hi]
    is [None]. *)
Inductive regex :=
| Eps
| Chars (cs : cset)
| Quant (cs : cset) (lo : nat) (hi : option nat) (greedy : bool)
| Cat (a b : regex)
| Alt (a b : regex)
| Group (n : nat) (a : regex)
| WordB                         (* \b *)
| Eol                           (* $ *)
| NegAhead (a : regex).         (* (?!...) *)

Definition star cs := Quant cs 0 None true.
Definition plus cs := Quant cs 1 None true.
Definition opt cs := Quant cs 0 (Some 1) true.
Definition star_lazy cs := Quant cs 0 None false.
Definition plus_lazy cs := Quant cs 1 None false.

Fixpoint lit_text (s : text) : regex :=
  match s with
  | [] => Eps
  | [c] => Chars (CChr c)
  | c :: tl => Cat (Chars (CChr c)) (lit_text tl)
  end.

Definition lit (s : string) : regex := lit_text (T s).

Fixpoint cat (l : list regex) : regex :=
  match l with
  | [] => Eps
  | [r] => r
  | r :: tl => Cat r (cat tl)
  end.

(** Matcher state: the character before the current position (for [\b]),
    the text still to read, and the groups captured so far (latest first). *)
Record mstate := MState {
  prev : option ascii;
  rest : text;
  caps : list (nat * text)
}.

(** Text read between two states of one match attempt. *)
Definition consumed (st st' : mstate) : text :=
  firstn (length (rest st) - length (rest st')) (rest st).

Definition width (st st' : mstate) : nat :=
  length (rest st) - length (rest st').

Definition set_cap (n : nat) (w : text) (st : mstate) : mstate :=
  MState (prev st) (rest st) ((n, w) :: caps st).

Definition opt_word (o : option ascii) : bool :=
  match o with Some c => is_word c | None => false end.

(** The states reachable by reading 0, 1, 2, ... characters of [cs]. *)
Fixpoint runs (fl : flags) (cs : cset) (p : option ascii) (s : text)
  (g : list (nat * text)) : list mstate :=
  MState p s g ::
  match s with
  | c :: tl => if cset_mem fl cs c then runs fl cs (Some c) tl g else []
  | [] => []
  end.

Definition bounded (lo : nat) (hi : option nat) (l : list mstate) : list mstate :=
  skipn lo (match hi with Some h => firstn (S h) l | None => l end).

(** [ms fl r st]: every way [r] matches at [st], in the order in which
    Python's backtracking matcher reaches them; the head is the match
    [re] reports. *)
Fixpoint ms (fl : flags) (r : regex) (st : mstate) : list mstate :=
  match r with
  | Eps => [st]
  | Chars cs =>
      match rest st with
      | c :: tl => if cset_mem fl cs c then [MState (Some c) tl (caps st)] else []
      | [] => []
      end
  | Quant cs lo hi greedy =>
      let l := bounded lo hi (runs fl cs (prev st) (rest st) (caps st)) in
      if greedy then rev l else l
  | Cat a b => flat_map (ms fl b) (ms fl a st)
  | Alt a b => ms fl a st ++ ms fl b st
  | Group n a => map (fun st' => set_cap n (consumed st st') st') (ms fl a st)
  | WordB =>
      if xorb (opt_word (prev st)) (opt_word (hd_error (rest st)))
      then [st] else []
  | Eol =>
      match rest st with
      | [] => [st]
      | c :: tl =>
          if eqc c newline && (multiline fl || match tl with [] => true | _ => false end)
          then [st] else []
      end
  | NegAhead a =>
      match ms fl a st with
      | [] => [st]
      | _ :: _ => []
      end
  end.

(** A match object: start and end offsets and the captured groups. *)
Record rmatch := RMatch {
  m_start : nat;
  m_end : nat;
  m_caps : list (nat * text)
}.

Fixpoint lookup_cap (n : nat) (g : list (nat * text)) : option text :=
  match g with
  | [] => None
  | (k, w) :: tl => if k =? n then Some w else lookup_cap n tl
  end.

(** [m.group(n)] for a group that took part in the match; a group that
    did not expands to the empty string in a replacement template. *)
Definition group (n : nat) (m : rmatch) : text :=
  match lookup_cap n (m_caps m) with Some w => w | None => [] end.

(** [re.match]: anchored at the start of the text. *)
Definition re_match (fl : flags) (r : regex) (s : text) : option rmatch :=
  match ms fl r (MState None s []) with
  | st' :: _ => Some (RMatch 0 (length s - length (rest st')) (caps st'))
  | [] => None
  end.

(** [re.search]: the first offset at which the pattern matches. *)
Fixpoint search_from (fl : flags) (r : regex) (p : option ascii) (s : text)
  (i : nat) : option rmatch :=
  match ms fl r (MState p s []) with
  | st' :: _ => Some (RMatch i (i + (length s - length (rest st'))) (caps st'))
  | [] =>
      match s with
      | [] => None
      | c :: tl => search_from fl r (Some c) tl (S i)
      end
  end.

Definition re_search (fl : flags) (r : regex) (s : text) : option rmatch :=
  search_from fl r None s 0.

(** The matches [re.sub] and [re.split] take at one offset: the first
    match; when that one is empty, the scan resumes at the same offset
    and must advance, so the first non-empty match (if any) follows. *)
Definition hits (fl : flags) (r : regex) (st : mstate) : list mstate :=
  match ms fl r st with
  | [] => []
  | st1 :: others =>
      if width st st1 =? 0
      then st1 :: match filter (fun x => negb (width st x =? 0)) others with
                  | [] => []
                  | st2 :: _ => [st2]
                  end
      else [st1]
  end.

Definition hits_width (st : mstate) (hs : list mstate) : nat :=
  match rev hs with
  | [] => 0
  | st' :: _ => width st st'
  end.

(** Replacement templates: literal text and group references [\n]. *)
Inductive titem :=
| TText (w : text)
| TGroup (n : nat).

Definition expand_item (g : list (nat * text)) (t : titem) : text :=
  match t with
  | TText w => w
  | TGroup n => match lookup_cap n g with Some w => w | None => [] end
  end.

Definition expand (tpl : list titem) (st : mstate) : text :=
  flat_map (expand_item (caps st)) tpl.

(** [re.sub]: [skip] counts the characters of the current match that are
    still to be dropped. *)
Fixpoint sub_loop (fl : flags) (r : regex) (tpl : list titem)
  (p : option ascii) (s : text) (skip : nat) : text :=
  match skip with
  | S k =>
      match s with
      | [] => []
      | c :: tl => sub_loop fl r tpl (Some c) tl k
      end
  | 0 =>
      let st := MState p s [] in
      let hs := hits fl r st in
      flat_map (expand tpl) hs ++
      match s with
      | [] => []
      | c :: tl =>
          match hits_width st hs with
          | 0 => c :: sub_loop fl r tpl (Some c) tl 0
          | S k => sub_loop fl r tpl (Some c) tl k
          end
      end
  end.

Definition re_sub (fl : flags) (r : regex) (tpl : list titem) (s : text) : text :=
  sub_loop fl r tpl None s 0.

(** [re.split] for a pattern without groups: [cur] is the piece being
    collected, reversed. *)
Fixpoint split_loop (fl : flags) (r : regex) (p : option ascii) (s : text)
  (skip : nat) (cur : text) : list text :=
  match skip with
  | S k =>
      match s with
      | [] => [rev cur]
      | c :: tl => split_loop fl r (Some c) tl k cur
      end
  | 0 =>
      let st := MState p s [] in
      let hs := hits fl r st in
      match s with
      | [] => match hs with [] => [rev cur] | _ => [rev cur; []] end
      | c :: tl =>
          match hs with
          | [] => split_loop fl r (Some c) tl 0 (c :: cur)
          | _ =>
              match hits_width st hs with
              | 0 => rev cur :: split_loop fl r (Some c) tl 0 [c]
              | S k =>
                  rev cur ::
                  match hs with
                  | [_; _] => [] :: split_loop fl r (Some c) tl k []
                  | _ => split_loop fl r (Some c) tl k []
                  end
              end
          end
      end
  end.

Definition re_split (fl : flags) (r : regex) (s : text) : list text :=
  split_loop fl r None s 0 [].

End Re.

(* ================================================================== *)
(** ** The program *)

Module Ddl.
Import Chars Re.

Definition ch (c : ascii) : regex := Chars (CChr c).
Definition q_opt : regex := opt (CChr dquote).

(** [[\w\d_]] *)
Definition ident_cs : cset := CUnion CWord (CUnion CDigit (CChr "_")).

(** [[^)]] and [[^(]] *)
Definition not_close : cset := CNot (CChr ")").
Definition not_open : cset := CNot (CChr "(").

(** *** extract_create_table_block *)

(** [CREATE TABLE\s+"?([\w\d_]+)"?\."?([\w\d_]+)"?\s*\(] *)
Definition header_re : regex :=
  cat [lit "CREATE TABLE"; plus CSpace; q_opt; Group 1 (plus ident_cs); q_opt;
       ch "."; q_opt; Group 2 (plus ident_cs); q_opt; star CSpace; ch "("].

(** The [while] loop: the number of characters read from [s] until the
    depth returns to 0 or the text ends. *)
Fixpoint scan_block (depth : nat) (s : text) : nat :=
  match depth, s with
  | 0, _ => 0
  | _, [] => 0
  | S d, c :: tl =>
      S (scan_block (if eqc c "(" then S depth
                     else if eqc c ")" then d
                     else depth) tl)
  end.

(** Returns [(table_name, block)]; [None] stands for the pair
    [(None, None)] of the source. *)
Definition extract_create_table_block (sql : text) : option (text * text) :=
  match re_search I header_re sql with
  | None => None
  | Some m =>
      let table_name := group 2 m in
      let start := m_end m in
      let end_ := start + scan_block 1 (skipn start sql) in
      let block := slice (Z.of_nat (m_start m)) (Z.of_nat end_) sql in
      Some (table_name, block)
  end.

(** *** The preprocessing statements of convert_oracle_to_sqlite *)

(** [--.*?$] with MULTILINE *)
Definition line_comment_re : regex := cat [lit "--"; star_lazy CDot; Eol].

(** [/\*.*?\*/] with DOTALL *)
Definition block_comment_re : regex := cat [lit "/*"; star_lazy CDot; lit "*/"].

(** [\bNOVALIDATE\b] *)
Definition novalidate_re : regex := cat [WordB; lit "NOVALIDATE"; WordB].

(** [\s+] *)
Definition spaces_re : regex := plus CSpace.

Definition preprocess (oracle_sql : text) : text :=
  let oracle_sql := re_sub M line_comment_re [] oracle_sql in
  let oracle_sql := re_sub S_ block_comment_re [] oracle_sql in
  let oracle_sql := re_sub I novalidate_re [] oracle_sql in
  strip (re_sub no_flags spaces_re [TText (T " ")] oracle_sql).

(** [ALTER TABLE\s+"?(\w+)"?\."?(\w+)"?\s+ADD CONSTRAINT\s+"?\w+"?\s+PRIMARY KEY\s+\(([^)]+)\)] *)
Definition pk_re : regex :=
  cat [lit "ALTER TABLE"; plus CSpace; q_opt; Group 1 (plus CWord); q_opt;
       ch "."; q_opt; Group 2 (plus CWord); q_opt; plus CSpace;
       lit "ADD CONSTRAINT"; plus CSpace; q_opt; plus CWord; q_opt;
       plus CSpace; lit "PRIMARY KEY"; plus CSpace;
       ch "("; Group 3 (plus not_close); ch ")"].

Definition extract_primary_key (oracle_sql : text) : option text :=
  match re_search I pk_re oracle_sql with
  | Some pk_match => Some (strip (group 3 pk_match))
  | None => None
  end.

(** ["(\w+)"\."(\w+)"] replaced by [\2] *)
Definition qualified_re : regex :=
  cat [ch dquote; Group 1 (plus CWord); ch dquote; ch ".";
       ch dquote; Group 2 (plus CWord); ch dquote].

Definition unquote (create_block : text) : text :=
  remove_char dquote (re_sub no_flags qualified_re [TGroup 2] create_block).

(** *** map_oracle_type *)

(** [\(\s*(\d+)\s+(CHAR|BYTE)\s*\)] replaced by [(\1)] *)
Definition char_byte_re : regex :=
  cat [ch "("; star CSpace; Group 1 (plus CDigit); plus CSpace;
       Group 2 (Alt (lit "CHAR") (lit "BYTE")); star CSpace; ch ")"].

(** [NUMBER\s*\(\d+,\s*0\)] *)
Definition number_p0_re : regex :=
  cat [lit "NUMBER"; star CSpace; ch "("; plus CDigit; ch ","; star CSpace;
       ch "0"; ch ")"].

(** [NUMBER\s*\(\d+,\s*\d+\)] *)
Definition number_ps_re : regex :=
  cat [lit "NUMBER"; star CSpace; ch "("; plus CDigit; ch ","; star CSpace;
       plus CDigit; ch ")"].

(** [NUMBER\s*\(\d+\)] *)
Definition number_p_re : regex :=
  cat [lit "NUMBER"; star CSpace; ch "("; plus CDigit; ch ")"].

Definition is_some {A} (o : option A) : bool :=
  match o with Some _ => true | None => false end.

Definition map_oracle_type (t : text) : text :=
  let t := upper t in
  let t := re_sub no_flags char_byte_re
             [TText (T "("); TGroup 1; TText (T ")")] t in
  if is_some (re_match no_flags number_p0_re t) then T "INTEGER"
  else if is_some (re_match no_flags number_ps_re t) then T "REAL"
  else if is_some (re_match no_flags number_p_re t) then T "INTEGER"
  else if contains (T "NUMBER") t then T "INTEGER"
  else if contains (T "VARCHAR2") t || contains (T "CHAR") t
          || contains (T "CLOB") t then T "TEXT"
  else if contains (T "DATE") t || contains (T "TIMESTAMP") t then T "TEXT"
  else if contains (T "BLOB") t then T "BLOB"
  else t.

(** *** Splitting the block into items *)

(** [,(?![^(]*\))] *)
Definition comma_re : regex :=
  cat [ch ","; NegAhead (cat [star not_open; ch ")"])].

Definition split_items (create_block : text) : list text :=
  let inner := slice (find "(" create_block + 1) (rfind ")" create_block)
                 create_block in
  map strip (re_split no_flags comma_re inner).

(** *** The substitutions applied to each item *)

Definition constraint_re : regex :=
  cat [lit "CONSTRAINT"; plus CSpace; plus CWord; plus CSpace].
Definition enable_re : regex := cat [WordB; lit "ENABLE"; WordB].
Definition disable_re : regex := cat [WordB; lit "DISABLE"; WordB].
Definition tablespace_re : regex :=
  cat [lit "TABLESPACE"; plus CSpace; plus CWord].
Definition segment_re : regex :=
  cat [lit "SEGMENT CREATION"; plus CSpace; plus CWord].
Definition storage_re : regex :=
  cat [lit "STORAGE"; star CSpace; ch "("; star_lazy CDot; ch ")"].
Definition supplemental_re : regex :=
  cat [lit "SUPPLEMENTAL LOG DATA"; star CSpace; ch "("; star_lazy CDot;
       ch ")"; star CSpace; lit "COLUMNS"].
Definition using_index_re : regex :=
  cat [lit "USING INDEX"; plus CSpace; star CDot].

(** [IN\s*\(([^)]+?)NULL([^)]+?)\)] replaced by
    [IN (\1\2) OR NEGATION IS NULL] *)
Definition in_null_re : regex :=
  cat [lit "IN"; star CSpace; ch "("; Group 1 (plus_lazy not_close);
       lit "NULL"; Group 2 (plus_lazy not_close); ch ")"].
Definition in_null_tpl : list titem :=
  [TText (T "IN ("); TGroup 1; TGroup 2; TText (T ") OR NEGATION IS NULL")].

(** [(CHAR|VARCHAR2)\s*\(\s*(\d+)\s+(CHAR|BYTE)\s*\)] replaced by [\1(\2)] *)
Definition char_len_re : regex :=
  cat [Group 1 (Alt (lit "CHAR") (lit "VARCHAR2")); star CSpace; ch "(";
       star CSpace; Group 2 (plus CDigit); plus CSpace;
       Group 3 (Alt (lit "CHAR") (lit "BYTE")); star CSpace; ch ")"].

(** [NUMBER\s*\(\s*(\d+)\s*,\s*(\d+)\s*\)] replaced by [NUMBER(\1,\2)] *)
Definition number2_re : regex :=
  cat [lit "NUMBER"; star CSpace; ch "("; star CSpace; Group 1 (plus CDigit);
       star CSpace; ch ","; star CSpace; Group 2 (plus CDigit); star CSpace;
       ch ")"].

(** [NUMBER\s*\(\s*(\d+)\s*\)] replaced by [NUMBER(\1)] *)
Definition number1_re : regex :=
  cat [lit "NUMBER"; star CSpace; ch "("; star CSpace; Group 1 (plus CDigit);
       star CSpace; ch ")"].

Definition clean_item (item : text) : text :=
  let item := re_sub I constraint_re [] item in
  let item := re_sub I enable_re [] item in
  let item := re_sub I disable_re [] item in
  let item := re_sub I novalidate_re [] item in
  let item := re_sub I tablespace_re [] item in
  let item := re_sub I segment_re [] item in
  let item := re_sub I storage_re [] item in
  let item := re_sub I supplemental_re [] item in
  let item := re_sub I using_index_re [] item in
  let item := re_sub I in_null_re in_null_tpl item in
  let item := re_sub I char_len_re
                [TGroup 1; TText (T "("); TGroup 2; TText (T ")")] item in
  let item := re_sub I number2_re
                [TText (T "NUMBER("); TGroup 1; TText (T ","); TGroup 2;
                 TText (T ")")] item in
  re_sub I number1_re [TText (T "NUMBER("); TGroup 1; TText (T ")")] item.

(** [DEFAULT\s+\w+\.?\w*\.?NEXTVAL] *)
Definition default_seq_re : regex :=
  cat [lit "DEFAULT"; plus CSpace; plus CWord; opt (CChr "."); star CWord;
       opt (CChr "."); lit "NEXTVAL"].

(** Truth value of an optional string: [None] and [''] are false. *)
Definition truthy (o : option text) : bool :=
  match o with
  | Some (_ :: _) => true
  | _ => false
  end.

Definition text_eqb (a b : text) : bool :=
  (length a =? length b) && starts_with a b.

(** Does the column carry a sequence default and name the pending key? *)
Definition takes_key (primary_key_field : option text) (col_name rest : text)
  : bool :=
  is_some (re_search I default_seq_re rest)
  && truthy primary_key_field
  && match primary_key_field with
     | Some pk => text_eqb (upper col_name) (upper pk)
     | None => false
     end.

(** The loop state: the pending primary key and the items kept so far. *)
Record loop_state := LoopState {
  primary_key_field : option text;
  cleaned_items : list text
}.

(** One iteration of [for item in items]. *)
Definition loop_body (st : loop_state) (item : text) : loop_state :=
  let item := clean_item item in
  let parts := split_ws item in
  let '(pk, item) :=
    match parts with
    | col_name :: ty :: more =>
        let col_type := map_oracle_type ty in
        let rest := join (T " ") more in
        if takes_key (primary_key_field st) col_name rest
        then (None, col_name ++ T " INTEGER PRIMARY KEY AUTOINCREMENT")
        else (primary_key_field st,
              strip (col_name ++ T " " ++ col_type ++ T " " ++ rest))
    | _ => (primary_key_field st, item)
    end in
  let item := rstrip_char "," (strip item) in
  match item with
  | [] => LoopState pk (cleaned_items st)
  | _ => LoopState pk (cleaned_items st ++ [item])
  end.

Definition rewrite_items (pk : option text) (items : list text) : loop_state :=
  fold_left loop_body items (LoopState pk []).

(** The final statements: the trailing key and the assembly. *)
Definition assemble (table_name : text) (st : loop_state) : text :=
  let items :=
    match primary_key_field st with
    | Some (c :: pk) => cleaned_items st ++ [T "PRIMARY KEY (" ++ c :: pk ++ T ")"]
    | _ => cleaned_items st
    end in
  T "CREATE TABLE IF NOT EXISTS " ++ table_name ++ T " (" ++ [newline] ++ T "  "
    ++ join (T "," ++ [newline] ++ T "  ") items ++ [newline] ++ T ");".

Definition error_sentinel : text := T "-- ERROR: CREATE TABLE block not found".

(** *** convert_oracle_to_sqlite *)
Definition convert_oracle_to_sqlite (oracle_sql : text) : text :=
  let oracle_sql := preprocess oracle_sql in
  let primary_key_field := extract_primary_key oracle_sql in
  match extract_create_table_block oracle_sql with
  | None | Some (_, []) => error_sentinel
  | Some (table_name, create_block) =>
      let create_block := unquote create_block in
      let items := split_items create_block in
      assemble table_name (rewrite_items primary_key_field items)
  end.

End Ddl.

(* ================================================================== *)
(** ** Reference definitions used in the statements *)

Module Spec.
Import Chars Re Ddl.

(** The text left after the longest run of [cs] at the start of [s]. *)
Fixpoint drop_run (fl : flags) (cs : cset) (s : text) : text :=
  match s with
  | c :: tl => if cset_mem fl cs c then drop_run fl cs tl else s
  | [] => []
  end.

(** Whitespace collapse written as a scan: every run of whitespace
    becomes one space.  [in_run] tells that the previous character was
    whitespace. *)
Fixpoint squeeze (in_run : bool) (s : text) : text :=
  match s with
  | [] => []
  | c :: tl =>
      if is_space c
      then if in_run then squeeze true tl else " "%char :: squeeze true tl
      else c :: squeeze false tl
  end.

(** The last statement of the preprocessing stage on its own. *)
Definition normalize_ws (s : text) : text :=
  strip (re_sub no_flags spaces_re [TText (T " ")] s).

(** Every whitespace character is a single space between two other
    characters or at an end of the text. *)
Fixpoint squeezed (s : text) : bool :=
  match s with
  | [] => true
  | c :: tl =>
      (if is_space c
       then eqc c " " && match tl with d :: _ => negb (is_space d) | [] => true end
       else true) && squeezed tl
  end.


(** *** Schema-qualified headers *)

(** Case-insensitive prefix test, as IGNORECASE compares literals. *)
Fixpoint starts_with_ci (p s : text) : bool :=
  match p, s with
  | [], _ => true
  | a :: p', b :: s' => eqc (to_lower b) (to_lower a) && starts_with_ci p' s'
  | _ :: _, [] => false
  end.

Definition skip_quote (s : text) : text :=
  match s with
  | c :: tl => if eqc c dquote then tl else s
  | [] => []
  end.

Fixpoint skip_word (s : text) : text :=
  match s with
  | c :: tl => if is_word c then skip_word tl else s
  | [] => []
  end.

(** After the keywords: whitespace, an identifier in optional quotes,
    and then a dot. *)
Definition qualifier_follows (s : text) : bool :=
  match s with
  | c :: tl =>
      is_space c &&
      match skip_quote (lstrip tl) with
      | d :: tl' =>
          is_word d &&
          match skip_quote (skip_word tl') with
          | x :: _ => eqc x "."
          | [] => false
          end
      | [] => false
      end
  | [] => false
  end.

(** Some [CREATE TABLE] in [s] is followed by a dot-separated schema
    qualifier. *)
Fixpoint has_qualified_header (s : text) : bool :=
  (starts_with_ci (T "CREATE TABLE") s && qualifier_follows (skipn 12 s))
  || match s with
     | [] => false
     | _ :: tl => has_qualified_header tl
     end.

(** *** Items that keep their plain form *)

(** What [loop_body] makes of an item when it does not take the key. *)
Definition plain_item (item : text) : text :=
  let item := clean_item item in
  rstrip_char ","
    (strip
       match split_ws item with
       | col_name :: ty :: more =>
           strip (col_name ++ T " " ++ map_oracle_type ty ++ T " "
                  ++ join (T " ") more)
       | _ => item
       end).

(** The item is a column with a sequence default whose name is the
    pending key [pk]. *)
Definition claims_key (pk : text) (item : text) : bool :=
  match split_ws (clean_item item) with
  | col_name :: _ :: more => takes_key (Some pk) col_name (join (T " ") more)
  | _ => false
  end.

Definition nonempty (x : text) : bool :=
  match x with [] => false | _ :: _ => true end.

(** *** The rows of the type table *)

(** One of the tests of [map_oracle_type] succeeds on [t]. *)
Definition listed_type (t : text) : bool :=
  is_some (re_match no_flags number_p0_re t)
  || is_some (re_match no_flags number_ps_re t)
  || is_some (re_match no_flags number_p_re t)
  || contains (T "NUMBER") t
  || contains (T "VARCHAR2") t || contains (T "CHAR") t || contains (T "CLOB") t
  || contains (T "DATE") t || contains (T "TIMESTAMP") t
  || contains (T "BLOB") t.

Definition no_space (t : text) : bool := forallb (fun c => negb (is_space c)) t.

(** *** The item splitter as a scan *)

(** A closing parenthesis comes before the next opening one. *)
Fixpoint close_before_open (s : text) : bool :=
  match s with
  | [] => false
  | c :: tl =>
      if eqc c ")" then true
      else if eqc c "(" then false
      else close_before_open tl
  end.

(** Split at every comma that [close_before_open] does not protect;
    [cur] is the piece being collected, reversed. *)
Fixpoint split_commas (cur : text) (s : text) : list text :=
  match s with
  | [] => [rev cur]
  | c :: tl =>
      if eqc c "," && negb (close_before_open tl)
      then rev cur :: split_commas [] tl
      else split_commas (c :: cur) tl
  end.

End Spec.

(* ================================================================== *)
(** ** Sample inputs *)

Module Samples.
Import Chars Re Ddl.

(** ["s"] *)
Definition qt (s : string) : text := dquote :: T s ++ [dquote].

Definition nl : text := [newline].

(** CREATE TABLE "S"."T" (ID NUMBER(10) DEFAULT SEQ.NEXTVAL, NAME VARCHAR2(10)) *)
Definition create_seq : text :=
  T "CREATE TABLE " ++ qt "S" ++ T "." ++ qt "T"
    ++ T " (ID NUMBER(10) DEFAULT SEQ.NEXTVAL, NAME VARCHAR2(10))".

(** CREATE TABLE "S"."T" (ID NUMBER(10), NAME VARCHAR2(10)) *)
Definition create_plain : text :=
  T "CREATE TABLE " ++ qt "S" ++ T "." ++ qt "T"
    ++ T " (ID NUMBER(10), NAME VARCHAR2(10))".

(** ALTER TABLE "S"."T" ADD CONSTRAINT PK PRIMARY KEY (ID) *)
Definition alter_pk : text :=
  T "ALTER TABLE " ++ qt "S" ++ T "." ++ qt "T"
    ++ T " ADD CONSTRAINT PK PRIMARY KEY (ID)".

(** The two statements as a script, in either order, and on one line. *)
Definition seq_inputs : list text :=
  [ create_seq ++ T ";" ++ nl ++ alter_pk ++ T ";";
    alter_pk ++ T ";" ++ nl ++ create_seq ++ T ";";
    create_seq ++ T " " ++ alter_pk ].

Definition plain_input : text :=
  create_plain ++ T ";" ++ nl ++ alter_pk ++ T ";".

(** CREATE TABLE "HR"."EMP" ("ID" NUMBER(10,0) NOT NULL,
    "NAME" VARCHAR2(50 CHAR),
    CONSTRAINT EMP_CK CHECK ("NAME" IS NOT NULL) ENABLE) *)
Definition emp_input : text :=
  T "CREATE TABLE " ++ qt "HR" ++ T "." ++ qt "EMP" ++ T " (" ++ qt "ID"
    ++ T " NUMBER(10,0) NOT NULL, " ++ qt "NAME"
    ++ T " VARCHAR2(50 CHAR), CONSTRAINT EMP_CK CHECK (" ++ qt "NAME"
    ++ T " IS NOT NULL) ENABLE)".

(** Lines of output joined by newlines. *)
Definition lines (l : list text) : text := join nl l.

Definition in_null_input : text :=
  T "CREATE TABLE S.T (STATUS VARCHAR2(1) CHECK (STATUS IN ('A', NULL, 'B')))".

Definition nested_call_input : text :=
  T "CREATE TABLE S.T (A NUMBER, B NUMBER DEFAULT NVL(A, ABS(A)))".

Definition dashed_comment_input : text :=
  T "CREATE TABLE S.T (A NUMBER /* legacy -- id */" ++ nl ++ T ", B NUMBER)".

Definition unqualified_input : text :=
  T "CREATE TABLE T (ID NUMBER(10), PRICE NUMBER(10,2) DEFAULT 0.5)".

End Samples.

(* ================================================================== *)
(** ** Reference definitions for parentheses and items *)

Module Reference.
Import Chars Re Ddl.

(** [s] closes [k] open parentheses and is balanced otherwise. *)
Fixpoint bal (k : nat) (s : text) : bool :=
  match s with
  | [] => k =? 0
  | c :: tl =>
      if eqc c "(" then bal (S k) tl
      else if eqc c ")" then match k with 0 => false | S k' => bal k' tl end
      else bal k tl
  end.

(** Balanced with parentheses that do not nest: the depth, [d] at the
    start, never leaves 0 and 1 and ends at 0. *)
Fixpoint shallow (d : nat) (s : text) : bool :=
  match s with
  | [] => d =? 0
  | c :: tl =>
      if eqc c "(" then (d =? 0) && shallow 1 tl
      else if eqc c ")" then (d =? 1) && shallow 0 tl
      else shallow d tl
  end.

(** Splitting with a depth counter: cut at the commas met at depth 0. *)
Fixpoint split_top (d : nat) (cur : text) (s : text) : list text :=
  match s with
  | [] => [rev cur]
  | c :: tl =>
      if eqc c "," && (d =? 0) then rev cur :: split_top d [] tl
      else split_top (if eqc c "(" then S d
                      else if eqc c ")" then pred d
                      else d) (c :: cur) tl
  end.

(** The first token of an item after cleaning: [parts[0]]. *)
Definition column_name (item : text) : text :=
  match split_ws (clean_item item) with
  | col_name :: _ => col_name
  | [] => []
  end.

(** The text of an item that ends in a comma, or starts with
    whitespace. *)
Definition ends_with_comma (item : text) : bool :=
  match rev item with
  | c :: _ => eqc c ","
  | [] => false
  end.

Definition starts_with_space (item : text) : bool :=
  match item with
  | c :: _ => is_space c
  | [] => false
  end.

(** A kept item: not empty, no comma at its end, no whitespace at its
    start. *)
Definition tidy (item : text) : Prop :=
  Spec.nonempty item = true /\ ends_with_comma item = false
  /\ starts_with_space item = false.

(** No double quote in the text. *)
Definition no_dquote (t : text) : bool :=
  forallb (fun c => negb (eqc c dquote)) t.

(** The literal characters of a replacement template. *)
Definition tpl_chars (tpl : list titem) : text :=
  flat_map (fun t => match t with TText w => w | TGroup _ => [] end) tpl.

(** The final f-string: the statement for a table name and its items. *)
Definition statement (table_name : text) (items : list text) : text :=
  T "CREATE TABLE IF NOT EXISTS " ++ table_name ++ T " (" ++ [newline] ++ T "  "
    ++ join (T "," ++ [newline] ++ T "  ") items ++ [newline] ++ T ");".

(** The pending key as text; no key is the empty text. *)
Definition key_text (pk : option text) : text :=
  match pk with Some t => t | None => [] end.

Definition no_close (s : text) : bool :=
  forallb (fun c => negb (eqc c ")")) s.

(** The four SQLite type names the table maps to. *)
Definition storage_class (t : text) : Prop :=
  t = T "INTEGER" \/ t = T "REAL" \/ t = T "TEXT" \/ t = T "BLOB".

(** A non-empty run of decimal digits, and an identifier of [\w]
    characters. *)
Definition digits (s : text) : bool := Spec.nonempty s && forallb is_digit s.
Definition ident (s : text) : bool := Spec.nonempty s && forallb is_word s.

(** A non-empty run of whitespace. *)
Definition blank (s : text) : bool := Spec.nonempty s && forallb is_space s.

(** An optional double quote. *)
Definition oq (b : bool) : text := if b then [dquote] else [].

(** The keyword text up to case. *)
Definition same_ci (a b : text) : bool :=
  (length a =? length b) && Spec.starts_with_ci b a.

(** The text of a header with its parts named: keyword, whitespace,
    schema and table, each in optional quotes, around a dot, optional
    whitespace and the opening parenthesis. *)
Definition header_text (kw sp : text) (q1 : bool) (schema : text) (q2 q3 : bool)
  (table : text) (q4 : bool) (sp' : text) : text :=
  kw ++ sp ++ oq q1 ++ schema ++ oq q2 ++ "."%char :: oq q3 ++ table ++ oq q4
     ++ sp' ++ ["("%char].

(** The first character of the text, if any, fails [P]. *)
Definition hd_fails (P : ascii -> bool) (X : text) : Prop :=
  match X with [] => True | c :: _ => P c = false end.

End Reference.

(* ================================================================== *)
(** ** More sample inputs *)

Module MoreSamples.
Import Chars Re Ddl Samples.

(** Two columns with a sequence default and the name of the key; the
    second one in lower case. *)
Definition two_sequences_input : text :=
  T "CREATE TABLE S.T (NAME VARCHAR2(10), ID NUMBER(10) DEFAULT SEQ.NEXTVAL, id NUMBER DEFAULT S2.NEXTVAL);"
    ++ nl ++ T "ALTER TABLE S.T ADD CONSTRAINT PK PRIMARY KEY (ID);".

(** Every identifier in double quotes, as DBMS_METADATA.GET_DDL writes
    them. *)
Definition quoted_key_input : text :=
  T "CREATE TABLE " ++ qt "S" ++ T "." ++ qt "T" ++ T " (" ++ qt "ID"
    ++ T " NUMBER(10) DEFAULT " ++ qt "S" ++ T "." ++ qt "SEQ"
    ++ T ".NEXTVAL, " ++ qt "NAME" ++ T " VARCHAR2(10));" ++ nl
    ++ T "ALTER TABLE " ++ qt "S" ++ T "." ++ qt "T" ++ T " ADD CONSTRAINT "
    ++ qt "PK" ++ T " PRIMARY KEY (" ++ qt "ID" ++ T ");".

Definition quoted_key_block : text :=
  T "CREATE TABLE " ++ qt "S" ++ T "." ++ qt "T" ++ T " (" ++ qt "ID"
    ++ T " NUMBER(10) DEFAULT " ++ qt "S" ++ T "." ++ qt "SEQ"
    ++ T ".NEXTVAL, " ++ qt "NAME" ++ T " VARCHAR2(10))".

End MoreSamples.

(* ================================================================== *)
(** ** Facts about the matcher *)

Module ReFacts.
Import Chars Re Spec.

Lemma nth_runs fl cs s : forall n p g st',
  nth_error (runs fl cs p s g) n = Some st' ->
  exists w, s = w ++ rest st' /\ length w = n /\ caps st' = g
            /\ forallb (cset_mem fl cs) w = true.
Proof.
  induction s as [|c tl IH]; intros n p g st' H; simpl in H.
  - destruct n as [|n]; simpl in H.
    + injection H as <-. exists []. auto.
    + destruct n; discriminate.
  - destruct n as [|n]; simpl in H.
    + injection H as <-. exists []. auto.
    + destruct (cset_mem fl cs c) eqn:E.
      * apply IH in H. destruct H as (w & -> & Hl & Hc & Hw).
        exists (c :: w). simpl. rewrite E. auto.
      * destruct n; discriminate.
Qed.

Lemma in_skipn_nth {A} (x : A) lo : forall l,
  In x (skipn lo l) -> exists n, lo <= n /\ nth_error l n = Some x.
Proof.
  induction lo as [|lo IH]; intros l H.
  - apply In_nth_error in H. destruct H as (n & H). exists n. split; [lia|auto].
  - destruct l as [|a l]; [contradiction|]. simpl in H.
    apply IH in H. destruct H as (n & Hn & H). exists (S n). split; [lia|auto].
Qed.

Lemma nth_firstn_some {A} (x : A) k : forall l n,
  nth_error (firstn k l) n = Some x -> n < k /\ nth_error l n = Some x.
Proof.
  induction k as [|k IH]; intros l n H.
  - destruct n; discriminate.
  - destruct l as [|a l]; [destruct n; discriminate|].
    destruct n as [|n]; simpl in *.
    + split; [lia|auto].
    + apply IH in H. split; [lia|tauto].
Qed.

Definition within (hi : option nat) (n : nat) : Prop :=
  match hi with Some h => n <= h | None => True end.

Lemma in_bounded lo hi l (x : mstate) :
  In x (bounded lo hi l) ->
  exists n, lo <= n /\ within hi n /\ nth_error l n = Some x.
Proof.
  unfold bounded. intros H. apply in_skipn_nth in H.
  destruct H as (n & Hn & H). exists n. destruct hi as [h|]; simpl.
  - apply nth_firstn_some in H. intuition lia.
  - auto.
Qed.

(** What a repetition reads: between [lo] and [hi] characters of [cs]. *)
Lemma in_ms_quant fl cs lo hi g st st' :
  In st' (ms fl (Quant cs lo hi g) st) ->
  exists w, rest st = w ++ rest st' /\ lo <= length w /\ within hi (length w)
            /\ forallb (cset_mem fl cs) w = true.
Proof.
  intros H.
  assert (H' : In st' (bounded lo hi (runs fl cs (prev st) (rest st) (caps st)))).
  { simpl in H. destruct g; auto. now apply in_rev in H. }
  apply in_bounded in H'. destruct H' as (n & Hlo & Hhi & H').
  apply nth_runs in H'. destruct H' as (w & Hw & <- & _ & Hall). eauto.
Qed.

Lemma in_ms_chars fl cs st st' :
  In st' (ms fl (Chars cs) st) ->
  exists c, rest st = c :: rest st' /\ cset_mem fl cs c = true.
Proof.
  simpl. destruct (rest st) as [|c tl]; [contradiction|].
  destruct (cset_mem fl cs c) eqn:E; [|contradiction].
  intros [<-|[]]. eauto.
Qed.

Lemma in_ms_cat fl a b st st' :
  In st' (ms fl (Cat a b) st) ->
  exists mid, In mid (ms fl a st) /\ In st' (ms fl b mid).
Proof. simpl. intros H. now apply in_flat_map in H. Qed.

Lemma in_ms_group fl n a st st' :
  In st' (ms fl (Group n a) st) ->
  exists x, In x (ms fl a st) /\ rest st' = rest x.
Proof.
  simpl. intros H. apply in_map_iff in H. destruct H as (x & <- & H). eauto.
Qed.

(** A match only moves forward in the text. *)
Lemma ms_suffix fl r : forall st st',
  In st' (ms fl r st) -> exists w, rest st = w ++ rest st'.
Proof.
  induction r; intros st st' H.
  - destruct H as [<-|[]]. now exists [].
  - apply in_ms_chars in H. destruct H as (c & -> & _). now exists [c].
  - apply in_ms_quant in H. destruct H as (w & ? & _). eauto.
  - apply in_ms_cat in H. destruct H as (mid & H1 & H2).
    apply IHr1 in H1. apply IHr2 in H2.
    destruct H1 as (w1 & ->). destruct H2 as (w2 & ->).
    exists (w1 ++ w2). now rewrite app_assoc.
  - simpl in H. apply in_app_or in H. destruct H; eauto.
  - apply in_ms_group in H. destruct H as (x & H & ->). eauto.
  - simpl in H. destruct (xorb _ _); [|contradiction].
    destruct H as [<-|[]]. now exists [].
  - simpl in H. destruct (rest st) as [|c tl] eqn:E.
    + destruct H as [<-|[]]. exists []. now rewrite E.
    + destruct (_ && _); [|contradiction].
      destruct H as [<-|[]]. exists []. now rewrite E.
  - simpl in H. destruct (ms fl r st); [|contradiction].
    destruct H as [<-|[]]. now exists [].
Qed.


(** [re.search] finds nothing exactly when no offset matches; [re.sub]
    then returns its argument. *)
Lemma search_none_sub fl r tpl : forall s p i,
  search_from fl r p s i = None -> sub_loop fl r tpl p s 0 = s.
Proof.
  induction s as [|c tl IH]; intros p i H; simpl in H |- *;
    unfold hits; destruct (ms fl r _) eqn:E; try discriminate; simpl.
  - reflexivity.
  - f_equal. eauto.
Qed.

Lemma re_search_none_sub fl r tpl s :
  re_search fl r s = None -> re_sub fl r tpl s = s.
Proof. apply search_none_sub. Qed.

(** Skipping [k] characters resumes the scan [k] characters later. *)
Lemma sub_loop_skip fl r tpl : forall k s p,
  k <= length s ->
  exists p', sub_loop fl r tpl p s k = sub_loop fl r tpl p' (skipn k s) 0.
Proof.
  induction k as [|k IH]; intros s p Hk.
  - exists p. reflexivity.
  - destruct s as [|c tl]; simpl in Hk; [lia|].
    destruct (IH tl (Some c)) as (p' & Hp); [lia|].
    exists p'. simpl. destruct k; exact Hp.
Qed.

(** The last state of [runs] is the one after the longest run. *)
Lemma rev_runs fl cs : forall s p g,
  exists p' l, rev (runs fl cs p s g) = MState p' (drop_run fl cs s) g :: l.
Proof.
  induction s as [|c tl IH]; intros p g; simpl.
  - exists p, []. reflexivity.
  - destruct (cset_mem fl cs c).
    + destruct (IH (Some c) g) as (p' & l & ->). simpl. eauto.
    + exists p, []. reflexivity.
Qed.

Lemma drop_run_suffix fl cs : forall s,
  exists w, s = w ++ drop_run fl cs s /\ forallb (cset_mem fl cs) w = true.
Proof.
  induction s as [|c tl (w & IH & Hw)]; simpl.
  - exists []. auto.
  - destruct (cset_mem fl cs c) eqn:E.
    + exists (c :: w). simpl. rewrite E. split; [congruence|auto].
    + exists []. auto.
Qed.

Lemma ms_plus_head fl cs p c tl g :
  cset_mem fl cs c = true ->
  exists p' l, ms fl (plus cs) (MState p (c :: tl) g)
               = MState p' (drop_run fl cs tl) g :: l.
Proof.
  intros E. simpl. rewrite E. simpl.
  apply rev_runs.
Qed.

Lemma ms_plus_nil fl cs p s g :
  match s with [] => True | c :: _ => cset_mem fl cs c = false end ->
  ms fl (plus cs) (MState p s g) = [].
Proof.
  intros E. destruct s as [|c tl]; simpl; [reflexivity|].
  rewrite E. reflexivity.
Qed.

(** [re.search] returns [None] when the pattern matches at no offset. *)
Lemma search_from_none_intro fl r : forall s p i,
  (forall pre s' p', s = pre ++ s' -> ms fl r (MState p' s' []) = []) ->
  search_from fl r p s i = None.
Proof.
  induction s as [|c tl IH]; intros p i H; simpl.
  - now rewrite (H [] [] p eq_refl).
  - rewrite (H [] (c :: tl) p eq_refl). apply IH.
    intros pre s' p' ->. apply (H (c :: pre)). reflexivity.
Qed.

(** What a successful [re.search] reports. *)
Lemma search_from_some fl r : forall s p i m,
  search_from fl r p s i = Some m ->
  exists pre s' p' st' l,
    s = pre ++ s' /\ ms fl r (MState p' s' []) = st' :: l
    /\ m_start m = i + length pre
    /\ m_end m = m_start m + (length s' - length (rest st'))
    /\ m_caps m = caps st'.
Proof.
  induction s as [|c tl IH]; intros p i m H; simpl in H.
  - destruct (ms fl r (MState p [] [])) as [|st' l] eqn:E; [discriminate|].
    injection H as <-. exists [], [], p, st', l. simpl.
    repeat split; auto; lia.
  - destruct (ms fl r (MState p (c :: tl) [])) as [|st' l] eqn:E.
    + apply IH in H.
      destruct H as (pre & s' & p' & st' & l & -> & Hm & Hs & He & Hc).
      exists (c :: pre), s', p', st', l. simpl. repeat split; auto; lia.
    + injection H as <-. exists [], (c :: tl), p, st', l. simpl.
      repeat split; auto; lia.
Qed.

(** A literal reads its own characters, up to case under IGNORECASE. *)
Lemma in_ms_lit fl : forall w st st',
  In st' (ms fl (lit_text w) st) ->
  exists v, rest st = v ++ rest st'
            /\ Forall2 (fun x c => cset_mem fl (CChr x) c = true) w v.
Proof.
  induction w as [|x w IH]; intros st st' H.
  - destruct H as [<-|[]]. exists []. split; [reflexivity|constructor].
  - destruct w as [|y w].
    + apply in_ms_chars in H. destruct H as (c & -> & Hc).
      exists [c]. split; [reflexivity|]. repeat constructor. exact Hc.
    + change (lit_text (x :: y :: w))
        with (Cat (Chars (CChr x)) (lit_text (y :: w))) in H.
      apply in_ms_cat in H. destruct H as (mid & H1 & H2).
      apply in_ms_chars in H1. destruct H1 as (c & -> & Hc).
      apply IH in H2. destruct H2 as (v & -> & Hv).
      exists (c :: v). split; [reflexivity|]. constructor; assumption.
Qed.

Lemma Forall2_length_eq {A B} (P : A -> B -> Prop) l l' :
  Forall2 P l l' -> length l = length l'.
Proof. induction 1; simpl; congruence. Qed.

End ReFacts.

(* ================================================================== *)
(** ** Whitespace normalisation *)

Module WsFacts.
Import Chars Re Ddl Spec ReFacts.

Lemma lstrip_drop_run s : lstrip s = drop_run no_flags CSpace s.
Proof. induction s as [|c tl IH]; simpl; [|rewrite IH]; reflexivity. Qed.

Lemma lstrip_suffix s :
  exists w, s = w ++ lstrip s /\ forallb is_space w = true.
Proof.
  rewrite lstrip_drop_run.
  destruct (drop_run_suffix no_flags CSpace s) as (w & H & Hw). eauto.
Qed.

Lemma lstrip_length s : length (lstrip s) <= length s.
Proof.
  destruct (lstrip_suffix s) as (w & H & _).
  rewrite H at 2. rewrite length_app. lia.
Qed.

Lemma skipn_lstrip s : skipn (length s - length (lstrip s)) s = lstrip s.
Proof.
  destruct (lstrip_suffix s) as (w & H & _).
  assert (length s - length (lstrip s) = length w).
  { rewrite H at 1. rewrite length_app. lia. }
  rewrite H0. rewrite H at 1. rewrite skipn_app, skipn_all, Nat.sub_diag.
  reflexivity.
Qed.

(** At a whitespace character [\s+] takes the whole run; elsewhere it
    does not match. *)
Lemma hits_spaces_here p c tl :
  is_space c = true ->
  exists p', hits no_flags spaces_re (MState p (c :: tl) [])
             = [MState p' (lstrip tl) []].
Proof.
  intros E. unfold hits, spaces_re.
  destruct (ms_plus_head no_flags CSpace p c tl [] E) as (p' & l & ->).
  exists p'. unfold width. cbn [rest length].
  rewrite <- lstrip_drop_run.
  pose proof (lstrip_length tl).
  destruct (S (length tl) - length (lstrip tl)) eqn:W; [lia|reflexivity].
Qed.

Lemma hits_spaces_none p s :
  match s with [] => True | c :: _ => is_space c = false end ->
  hits no_flags spaces_re (MState p s []) = [].
Proof.
  intros E. unfold hits, spaces_re. now rewrite ms_plus_nil.
Qed.

Lemma squeeze_true s : squeeze true s = squeeze false (lstrip s).
Proof.
  induction s as [|c tl IH]; simpl; [reflexivity|].
  destruct (is_space c) eqn:E; [exact IH|].
  simpl. now rewrite E.
Qed.

(** [re.sub(r'\s+', ' ', s)] is the scan [squeeze]. *)
Lemma sub_spaces_squeeze_len : forall n s p,
  length s <= n ->
  sub_loop no_flags spaces_re [TText (T " ")] p s 0 = squeeze false s.
Proof.
  induction n as [|n IH]; intros s p Hn.
  - destruct s; [|simpl in Hn; lia].
    cbn [sub_loop]. now rewrite hits_spaces_none.
  - destruct s as [|c tl].
    + cbn [sub_loop]. now rewrite hits_spaces_none.
    + cbn [sub_loop squeeze]. destruct (is_space c) eqn:E.
      * destruct (hits_spaces_here p c tl E) as (p' & ->).
        unfold hits_width, width. cbn [rev app rest length flat_map expand
          expand_item caps].
        pose proof (lstrip_length tl).
        destruct (S (length tl) - length (lstrip tl)) as [|k] eqn:W; [lia|].
        assert (Hk : k = length tl - length (lstrip tl)) by lia.
        destruct (sub_loop_skip no_flags spaces_re [TText (T " ")] k tl (Some c))
          as (p'' & ->); [lia|].
        rewrite Hk, skipn_lstrip, IH, squeeze_true; [reflexivity|].
        simpl in Hn. lia.
      * rewrite hits_spaces_none by exact E. cbn.
        f_equal. apply IH. simpl in Hn. lia.
Qed.

Lemma sub_spaces_squeeze s :
  re_sub no_flags spaces_re [TText (T " ")] s = squeeze false s.
Proof. apply sub_spaces_squeeze_len with (n := length s). lia. Qed.


(** *** [strip] is idempotent *)

Lemma lstrip_idem s : lstrip (lstrip s) = lstrip s.
Proof.
  induction s as [|c tl IH]; simpl; [reflexivity|].
  destruct (is_space c) eqn:E; [exact IH|]. simpl. now rewrite E.
Qed.

Lemma lstrip_head s :
  match lstrip s with [] => True | c :: _ => is_space c = false end.
Proof.
  induction s as [|c tl IH]; simpl; [exact Logic.I|].
  destruct (is_space c) eqn:E; [exact IH|exact E].
Qed.

Lemma lstrip_fixed s :
  match s with [] => True | c :: _ => is_space c = false end -> lstrip s = s.
Proof. destruct s as [|c tl]; simpl; [reflexivity|]. now intros ->. Qed.

Lemma rstrip_prefix s : exists z, s = rstrip s ++ z.
Proof.
  unfold rstrip. destruct (lstrip_suffix (rev s)) as (w & H & _).
  exists (rev w). rewrite <- rev_app_distr, <- H. now rewrite rev_involutive.
Qed.

Lemma rstrip_idem s : rstrip (rstrip s) = rstrip s.
Proof. unfold rstrip. now rewrite rev_involutive, lstrip_idem. Qed.

Lemma strip_idem s : strip (strip s) = strip s.
Proof.
  unfold strip. set (y := lstrip s).
  assert (Hy : match y with [] => True | c :: _ => is_space c = false end)
    by apply lstrip_head.
  rewrite lstrip_fixed; [apply rstrip_idem|].
  destruct (rstrip_prefix y) as (z & Hz).
  destruct (rstrip y) as [|c r]; [exact Logic.I|].
  rewrite Hz in Hy. exact Hy.
Qed.

(** *** The collapsed form is stable *)

Lemma squeezed_tail c s : squeezed (c :: s) = true -> squeezed s = true.
Proof. simpl. intros H. now apply andb_prop in H. Qed.

Lemma squeezed_app_r a : forall b, squeezed (a ++ b) = true -> squeezed b = true.
Proof.
  induction a as [|c a IH]; intros b H; [exact H|].
  apply IH. now apply squeezed_tail with c.
Qed.

Lemma squeezed_app_l a : forall b, squeezed (a ++ b) = true -> squeezed a = true.
Proof.
  induction a as [|c a IH]; intros b H; [reflexivity|].
  cbn [app squeezed] in H |- *.
  apply andb_prop in H. destruct H as (H1 & H2).
  rewrite (IH b H2), andb_true_r.
  destruct (is_space c); [|reflexivity].
  destruct a as [|d a]; [|exact H1].
  apply andb_prop in H1. destruct H1 as (-> & _). reflexivity.
Qed.

Lemma squeezed_strip s : squeezed s = true -> squeezed (strip s) = true.
Proof.
  intros H. unfold strip.
  destruct (lstrip_suffix s) as (w & Hw & _). rewrite Hw in H.
  apply squeezed_app_r in H.
  destruct (rstrip_prefix (lstrip s)) as (z & Hz). rewrite Hz in H.
  now apply squeezed_app_l in H.
Qed.

Lemma squeeze_squeezed : forall s b,
  squeezed (squeeze b s) = true /\
  (b = true ->
   match squeeze b s with [] => True | c :: _ => is_space c = false end).
Proof.
  induction s as [|c tl IH]; intros b; [simpl; auto|].
  cbn [squeeze]. destruct (is_space c) eqn:E.
  - destruct b.
    + apply IH.
    + destruct (IH true) as (H1 & H2). split; [|discriminate].
      cbn [squeezed]. rewrite H1, andb_true_r.
      change (is_space " ") with true. cbn [eqc]. 
      specialize (H2 eq_refl). destruct (squeeze true tl); [reflexivity|].
      now rewrite H2.
  - destruct (IH false) as (H1 & _). split; [|intros _; exact E].
    cbn [squeezed]. now rewrite E, H1.
Qed.

Lemma squeeze_fixed : forall s b,
  squeezed s = true ->
  (b = true -> match s with [] => True | c :: _ => is_space c = false end) ->
  squeeze b s = s.
Proof.
  induction s as [|c tl IH]; intros b H Hb; [reflexivity|].
  cbn [squeeze squeezed] in *.
  apply andb_prop in H. destruct H as (H1 & H2).
  destruct (is_space c) eqn:E.
  - destruct b; [now specialize (Hb eq_refl)|].
    apply andb_prop in H1. destruct H1 as (Hc & Hn).
    apply Ascii.eqb_eq in Hc. subst c. f_equal.
    apply IH; [exact H2|]. intros _.
    destruct tl; [exact Logic.I|]. now apply negb_true_iff in Hn.
  - f_equal. apply IH; [exact H2|discriminate].
Qed.

(** Collapsing whitespace and trimming is idempotent. *)
Lemma normalize_ws_idem s : normalize_ws (normalize_ws s) = normalize_ws s.
Proof.
  unfold normalize_ws. rewrite !sub_spaces_squeeze.
  rewrite squeeze_fixed; [apply strip_idem| |discriminate].
  apply squeezed_strip, squeeze_squeezed.
Qed.

End WsFacts.

(* ================================================================== *)
(** ** The CREATE TABLE header *)

Module HeaderFacts.
Import Chars Re Ddl Spec ReFacts WsFacts.

Ltac each_ascii c :=
  let b0 := fresh in let b1 := fresh in let b2 := fresh in let b3 := fresh in
  let b4 := fresh in let b5 := fresh in let b6 := fresh in let b7 := fresh in
  destruct c as [b0 b1 b2 b3 b4 b5 b6 b7];
  destruct b0, b1, b2, b3, b4, b5, b6, b7.

Lemma ident_is_word c : cset_mem I ident_cs c = is_word c.
Proof. each_ascii c; reflexivity. Qed.

Lemma mem_dquote c : cset_mem I (CChr dquote) c = true -> c = dquote.
Proof. each_ascii c; vm_compute; intros H; try discriminate; reflexivity. Qed.

Lemma mem_dot c : cset_mem I (CChr ".") c = true -> c = "."%char.
Proof. each_ascii c; vm_compute; intros H; try discriminate; reflexivity. Qed.

Lemma word_not_space c : is_word c = true -> is_space c = false.
Proof. each_ascii c; vm_compute; intros H; try discriminate; reflexivity. Qed.

Lemma word_not_dquote c : is_word c = true -> eqc c dquote = false.
Proof. each_ascii c; vm_compute; intros H; try discriminate; reflexivity. Qed.

Definition opt_quote (w : text) : Prop := w = [] \/ w = [dquote].

Lemma opt_quote_intro w :
  length w <= 1 -> forallb (cset_mem I (CChr dquote)) w = true -> opt_quote w.
Proof.
  destruct w as [|a [|b w]]; simpl; intros Hl Hw.
  - now left.
  - right. rewrite andb_true_r in Hw. now rewrite (mem_dquote a Hw).
  - lia.
Qed.

Lemma lstrip_app w : forall r,
  forallb is_space w = true -> lstrip (w ++ r) = lstrip r.
Proof.
  induction w as [|c w IH]; intros r H; [reflexivity|].
  simpl in H |- *. apply andb_prop in H. destruct H as (-> & H). now apply IH.
Qed.

Lemma skip_word_app w : forall r,
  forallb is_word w = true -> skip_word (w ++ r) = skip_word r.
Proof.
  induction w as [|c w IH]; intros r H; [reflexivity|].
  simpl in H |- *. apply andb_prop in H. destruct H as (-> & H). now apply IH.
Qed.

Lemma qualifier_follows_intro w1 wq wi wq2 R :
  w1 <> [] -> forallb is_space w1 = true -> opt_quote wq ->
  wi <> [] -> forallb is_word wi = true -> opt_quote wq2 ->
  qualifier_follows (w1 ++ wq ++ wi ++ wq2 ++ "."%char :: R) = true.
Proof.
  intros H1 Hs Hq Hi Hw Hq2.
  destruct w1 as [|c w1]; [contradiction|].
  destruct wi as [|d wi]; [contradiction|].
  simpl in Hs, Hw.
  apply andb_prop in Hs. destruct Hs as (Hc & Hs).
  apply andb_prop in Hw. destruct Hw as (Hd & Hw).
  assert (E : skip_quote (lstrip (wq ++ (d :: wi) ++ wq2 ++ "."%char :: R))
              = d :: wi ++ wq2 ++ "."%char :: R).
  { destruct Hq as [->| ->]; cbn [app lstrip].
    - rewrite (word_not_space d Hd). cbn [skip_quote].
      now rewrite (word_not_dquote d Hd).
    - reflexivity. }
  change ((c :: w1) ++ wq ++ (d :: wi) ++ wq2 ++ "."%char :: R)
    with (c :: (w1 ++ wq ++ (d :: wi) ++ wq2 ++ "."%char :: R)).
  cbn [qualifier_follows]. rewrite Hc, lstrip_app by exact Hs.
  rewrite E, Hd, skip_word_app by exact Hw.
  destruct Hq2 as [->| ->]; reflexivity.
Qed.

Lemma starts_with_ci_intro p : forall v X,
  Forall2 (fun x c => cset_mem I (CChr x) c = true) p v ->
  starts_with_ci p (v ++ X) = true.
Proof.
  induction p as [|x p IH]; intros v X H; [reflexivity|].
  inversion H as [|? c ? v' Hc Hv]; subst. cbn [app starts_with_ci].
  simpl in Hc. rewrite Hc. now apply IH.
Qed.

(** Where the header pattern matches, CREATE TABLE is followed by an
    identifier and a dot. *)
Lemma header_match_qualified st st' :
  In st' (ms I header_re st) ->
  starts_with_ci (T "CREATE TABLE") (rest st) = true
  /\ qualifier_follows (skipn 12 (rest st)) = true
  /\ 12 <= length (rest st) - length (rest st').
Proof.
  unfold header_re. cbn [cat]. intros H.
  apply in_ms_cat in H. destruct H as (m1 & H1 & H).
  apply in_ms_lit in H1. destruct H1 as (v & Ev & Hv).
  pose proof (ms_suffix _ _ _ _ H) as (wrest & Ewrest).
  apply in_ms_cat in H. destruct H as (m2 & H2 & H).
  apply in_ms_quant in H2. destruct H2 as (w1 & E1 & L1 & _ & A1).
  apply in_ms_cat in H. destruct H as (m3 & H3 & H).
  apply in_ms_quant in H3. destruct H3 as (wq & Eq & _ & Lq & Aq).
  apply in_ms_cat in H. destruct H as (m4 & H4 & H).
  apply in_ms_group in H4. destruct H4 as (x & H4 & Ex).
  apply in_ms_quant in H4. destruct H4 as (wi & Ei & Li & _ & Ai).
  apply in_ms_cat in H. destruct H as (m5 & H5 & H).
  apply in_ms_quant in H5. destruct H5 as (wq2 & Eq2 & _ & Lq2 & Aq2).
  apply in_ms_cat in H. destruct H as (m6 & H6 & _).
  apply in_ms_chars in H6. destruct H6 as (c & Ec & Hc).
  apply mem_dot in Hc. subst c.
  assert (Lv : length v = 12).
  { apply Forall2_length_eq in Hv. now rewrite <- Hv. }
  rewrite Ev. split; [now apply starts_with_ci_intro|]. split.
  - rewrite skipn_app, Lv, Nat.sub_diag, skipn_all2 by lia. cbn [app skipn].
    rewrite E1, Eq, Ei, <- Ex, Eq2, Ec.
    apply qualifier_follows_intro.
    + destruct w1; [simpl in L1; lia|discriminate].
    + exact A1.
    + now apply opt_quote_intro.
    + destruct wi; [simpl in Li; lia|discriminate].
    + rewrite <- Ai. clear. induction wi as [|a wi IH]; [reflexivity|].
      cbn [forallb]. now rewrite IH, ident_is_word.
    + now apply opt_quote_intro.
  - rewrite Ewrest, !length_app. lia.
Qed.

Lemma has_qualified_header_suffix pre : forall s,
  has_qualified_header s = true -> has_qualified_header (pre ++ s) = true.
Proof.
  induction pre as [|c pre IH]; intros s H; [exact H|].
  cbn [app has_qualified_header]. rewrite (IH s H). apply orb_true_r.
Qed.

(** Without a qualified header the header search fails. *)
Lemma unqualified_no_header s :
  has_qualified_header s = false -> re_search I header_re s = None.
Proof.
  intros H. apply search_from_none_intro. intros pre s' p' ->.
  destruct (ms I header_re (MState p' s' [])) as [|st' l] eqn:E; [reflexivity|].
  assert (Hin : In st' (ms I header_re (MState p' s' []))) by (rewrite E; now left).
  apply header_match_qualified in Hin. cbn [rest] in Hin.
  destruct Hin as (Ha & Hb & _).
  assert (Hq : has_qualified_header s' = true).
  { destruct s'; cbn [has_qualified_header]; rewrite Ha, Hb; reflexivity. }
  apply (has_qualified_header_suffix pre) in Hq. congruence.
Qed.

Lemma slice_length_ge a b s :
  a <= b -> length (slice (Z.of_nat a) (Z.of_nat b) s) = Nat.min b (length s) - a.
Proof.
  intros Hab. unfold slice, clamp_index.
  destruct (Z.ltb_spec (Z.of_nat a) 0); [lia|].
  destruct (Z.ltb_spec (Z.of_nat b) 0); [lia|].
  rewrite length_firstn, length_skipn. lia.
Qed.

(** A block that was found starts with the twelve characters of
    CREATE TABLE, so it is not empty. *)
Lemma extract_block_nonempty sql name block :
  extract_create_table_block sql = Some (name, block) -> 12 <= length block.
Proof.
  unfold extract_create_table_block.
  destruct (re_search I header_re sql) as [m|] eqn:E; [|discriminate].
  intros H. injection H as _ <-.
  apply search_from_some in E.
  destruct E as (pre & s' & p' & st' & l & -> & Hm & Hs & He & _).
  assert (Hin : In st' (ms I header_re (MState p' s' []))) by (rewrite Hm; now left).
  apply header_match_qualified in Hin. cbn [rest] in Hin.
  destruct Hin as (_ & _ & Hw).
  rewrite slice_length_ge by lia. rewrite length_app. lia.
Qed.

End HeaderFacts.

(* ================================================================== *)
(** ** The item loop and the type table *)

Module LoopFacts.
Import Chars Re Ddl Spec ReFacts WsFacts HeaderFacts.

(** An item that does not take the key leaves the pending key alone and
    is kept in its plain form unless it is empty. *)
Lemma loop_body_plain pk acc item :
  claims_key pk item = false ->
  loop_body (LoopState (Some pk) acc) item
  = LoopState (Some pk) (acc ++ filter nonempty [plain_item item]).
Proof.
  unfold claims_key, loop_body, plain_item. cbn [primary_key_field cleaned_items].
  destruct (split_ws (clean_item item)) as [|col_name [|ty more]]; intros H.
  - destruct (rstrip_char "," (strip (clean_item item))); cbn [filter nonempty];
      now rewrite ?app_nil_r.
  - destruct (rstrip_char "," (strip (clean_item item))); cbn [filter nonempty];
      now rewrite ?app_nil_r.
  - rewrite H.
    destruct (rstrip_char "," _); cbn [filter nonempty]; now rewrite ?app_nil_r.
Qed.

Lemma fold_loop_plain pk : forall items acc,
  forallb (fun item => negb (claims_key pk item)) items = true ->
  fold_left loop_body items (LoopState (Some pk) acc)
  = LoopState (Some pk) (acc ++ filter nonempty (map plain_item items)).
Proof.
  induction items as [|item items IH]; intros acc H.
  - cbn. now rewrite app_nil_r.
  - cbn [forallb] in H. apply andb_prop in H. destruct H as (H1 & H2).
    apply negb_true_iff in H1.
    cbn [fold_left map]. rewrite (loop_body_plain pk acc item H1), (IH _ H2).
    f_equal. rewrite <- app_assoc. f_equal.
    cbn [filter]. destruct (nonempty (plain_item item)); reflexivity.
Qed.

Lemma rewrite_items_plain pk items :
  forallb (fun item => negb (claims_key pk item)) items = true ->
  rewrite_items (Some pk) items
  = LoopState (Some pk) (filter nonempty (map plain_item items)).
Proof. intros H. unfold rewrite_items. now rewrite (fold_loop_plain pk items [] H). Qed.

(** The result of a successful conversion never is the error text. *)
Lemma assemble_not_sentinel name st : assemble name st <> error_sentinel.
Proof.
  intros H. apply (f_equal (@hd_error ascii)) in H. discriminate H.
Qed.

(** *** Upper case *)

Lemma to_upper_idem c : to_upper (to_upper c) = to_upper c.
Proof. each_ascii c; reflexivity. Qed.

Lemma upper_idem t : upper (upper t) = upper t.
Proof.
  unfold upper. rewrite map_map. apply map_ext. exact to_upper_idem.
Qed.

Lemma space_to_upper c : is_space (to_upper c) = is_space c.
Proof. each_ascii c; reflexivity. Qed.

Lemma no_space_upper t : no_space (upper t) = no_space t.
Proof.
  induction t as [|c t IH]; [reflexivity|].
  unfold no_space, upper in *. cbn [map forallb]. now rewrite IH, space_to_upper.
Qed.

Lemma no_space_In t c : no_space t = true -> In c t -> is_space c = false.
Proof.
  unfold no_space. rewrite forallb_forall. intros H Hin.
  apply H in Hin. now apply negb_true_iff in Hin.
Qed.

(** The CHAR/BYTE qualifier pattern needs whitespace before the unit. *)
Lemma char_byte_needs_space st st' :
  In st' (ms no_flags char_byte_re st) ->
  exists c, In c (rest st) /\ is_space c = true.
Proof.
  unfold char_byte_re. cbn [cat]. intros H.
  apply in_ms_cat in H. destruct H as (m1 & H1 & H).
  apply in_ms_chars in H1. destruct H1 as (c1 & E1 & _).
  apply in_ms_cat in H. destruct H as (m2 & H2 & H).
  apply in_ms_quant in H2. destruct H2 as (w2 & E2 & _).
  apply in_ms_cat in H. destruct H as (m3 & H3 & H).
  apply in_ms_group in H3. destruct H3 as (x & H3 & Ex).
  apply in_ms_quant in H3. destruct H3 as (w3 & E3 & _).
  apply in_ms_cat in H. destruct H as (m4 & H4 & _).
  apply in_ms_quant in H4. destruct H4 as (w4 & E4 & L4 & _ & A4).
  destruct w4 as [|c w4]; [simpl in L4; lia|].
  exists c. split.
  - rewrite E1, E2, E3, <- Ex, E4. right.
    apply in_or_app. right. apply in_or_app. right. now left.
  - simpl in A4. now apply andb_prop in A4.
Qed.

Lemma char_byte_sub_no_space tpl t :
  no_space t = true -> re_sub no_flags char_byte_re tpl t = t.
Proof.
  intros H. apply re_search_none_sub, search_from_none_intro.
  intros pre s' p' ->.
  destruct (ms no_flags char_byte_re (MState p' s' [])) as [|st' l] eqn:E;
    [reflexivity|].
  assert (Hin : In st' (ms no_flags char_byte_re (MState p' s' [])))
    by (rewrite E; now left).
  apply char_byte_needs_space in Hin. destruct Hin as (c & Hc & Hs).
  cbn [rest] in Hc.
  rewrite (no_space_In (pre ++ s') c H) in Hs; [discriminate|].
  apply in_or_app. now right.
Qed.

(** A type that meets no row of the table comes back in upper case. *)
Lemma map_oracle_type_unlisted t :
  no_space t = true -> listed_type (upper t) = false ->
  map_oracle_type t = upper t.
Proof.
  intros Hs Hl. unfold map_oracle_type.
  rewrite char_byte_sub_no_space by now rewrite no_space_upper.
  unfold listed_type in Hl.
  repeat (apply orb_false_elim in Hl; destruct Hl as (Hl & ?)).
  repeat match goal with H : _ = false |- _ => rewrite H; clear H end.
  reflexivity.
Qed.

Lemma map_oracle_type_upper t : map_oracle_type (upper t) = map_oracle_type t.
Proof. unfold map_oracle_type. now rewrite upper_idem. Qed.

End LoopFacts.

(* ================================================================== *)
(** ** The item splitter *)

Module SplitFacts.
Import Chars Re Ddl Spec ReFacts.

Lemma flat_map_nil {A B} (f : A -> list B) l :
  (forall x, In x l -> f x = []) -> flat_map f l = [].
Proof.
  induction l as [|a l IH]; intros H; [reflexivity|].
  cbn [flat_map]. rewrite (H a (or_introl eq_refl)), IH; [reflexivity|].
  intros x Hx. apply H. now right.
Qed.

Lemma flat_map_not_nil {A B} (f : A -> list B) l x :
  In x l -> f x <> [] -> flat_map f l <> [].
Proof.
  intros Hin Hx E. apply Hx.
  destruct (f x) as [|b t] eqn:Ef; [reflexivity|].
  assert (Hb : In b (flat_map f l)).
  { apply in_flat_map. exists x. split; [exact Hin|]. rewrite Ef. now left. }
  rewrite E in Hb. contradiction.
Qed.

(** The lookahead [[^(]*\)] succeeds exactly when a closing parenthesis
    comes before the next opening one. *)
Lemma runs_close fl : forall s p g,
  ignorecase fl = false ->
  (exists x, In x (runs fl not_open p s g) /\ ms fl (ch ")") x <> [])
  <-> close_before_open s = true.
Proof.
  intros s p g Hfl. revert p.
  induction s as [|c tl IH]; intros p; cbn [runs close_before_open].
  - split; [|discriminate]. intros (x & [<-|[]] & Hx). now elim Hx.
  - unfold not_open at 1. cbn [cset_mem]. rewrite Hfl.
    destruct (eqc c ")") eqn:Ec.
    + split; [reflexivity|]. intros _.
      exists (MState p (c :: tl) g). split; [now left|].
      cbn. rewrite Hfl, Ec. discriminate.
    + destruct (eqc c "(") eqn:Eo; cbn [negb].
      * split; [|discriminate]. intros (x & [<-|[]] & Hx).
        elim Hx. cbn. now rewrite Hfl, Ec.
      * rewrite <- (IH (Some c)). split.
        -- intros (x & [<-|Hin] & Hx); [|eauto].
           elim Hx. cbn. now rewrite Hfl, Ec.
        -- intros (x & Hin & Hx). exists x. split; [now right|exact Hx].
Qed.

Lemma lookahead_close p s g :
  ms no_flags (cat [star not_open; ch ")"]) (MState p s g) = []
  <-> close_before_open s = false.
Proof.
  cbn [cat ms star bounded skipn prev rest caps].
  rewrite <- not_true_iff_false, <- (runs_close no_flags s p g eq_refl).
  split.
  - intros E (x & Hin & Hx).
    apply (flat_map_not_nil (ms no_flags (ch ")")) _ x) in E; auto.
    now apply in_rev in Hin.
  - intros H. apply flat_map_nil. intros x Hin.
    destruct (ms no_flags (ch ")") x) eqn:E; [reflexivity|].
    elim H. exists x. split; [now apply in_rev|]. rewrite E. discriminate.
Qed.

(** The comma pattern at one offset. *)
Lemma hits_comma p c tl :
  hits no_flags comma_re (MState p (c :: tl) [])
  = if eqc c "," && negb (close_before_open tl)
    then [MState (Some c) tl []] else [].
Proof.
  unfold hits, comma_re.
  change (cat [ch ","; NegAhead (cat [star not_open; ch ")"])])
    with (Cat (ch ",") (NegAhead (cat [star not_open; ch ")"]))).
  cbn [ms ch rest caps cset_mem ignorecase no_flags].
  destruct (eqc c ",") eqn:Ec; cbn [andb]; [|reflexivity].
  cbn [flat_map]. rewrite app_nil_r.
  change (NegAhead (cat [star not_open; Chars (CChr ")")]))
    with (NegAhead (cat [star not_open; ch ")"])).
  cbn [ms].
  destruct (close_before_open tl) eqn:Eb; cbn [negb].
  - destruct (ms no_flags (cat [star not_open; ch ")"]) (MState (Some c) tl []))
      eqn:E; [|reflexivity].
    apply lookahead_close in E. congruence.
  - rewrite (proj2 (lookahead_close (Some c) tl []) Eb).
    unfold width. cbn [rest length].
    replace (S (length tl) - length tl) with 1 by lia. reflexivity.
Qed.

Lemma hits_comma_end p : hits no_flags comma_re (MState p [] []) = [].
Proof. reflexivity. Qed.

(** [re.split] with the comma pattern is the scan [split_commas]. *)
Lemma split_loop_commas : forall s p cur,
  split_loop no_flags comma_re p s 0 cur = split_commas cur s.
Proof.
  induction s as [|c tl IH]; intros p cur.
  - reflexivity.
  - cbn [split_loop split_commas]. rewrite hits_comma.
    destruct (eqc c "," && negb (close_before_open tl)).
    + unfold hits_width, width. cbn [rev app rest length].
      replace (S (length tl) - length tl) with 1 by lia.
      now rewrite IH.
    + apply IH.
Qed.

Lemma re_split_commas s : re_split no_flags comma_re s = split_commas [] s.
Proof. apply split_loop_commas. Qed.

(** The splitter as a whole: the text between the first opening and the
    last closing parenthesis, cut by [split_commas], each piece trimmed. *)
Lemma split_items_scan block :
  split_items block
  = map strip (split_commas []
                 (slice (find "(" block + 1) (rfind ")" block) block)).
Proof. unfold split_items. now rewrite re_split_commas. Qed.

End SplitFacts.

(* ================================================================== *)
(** ** When a second preprocessing run changes the text *)

Module ShrinkFacts.
Import Chars Re Ddl Spec ReFacts WsFacts HeaderFacts LoopFacts.

(** Every match of the pattern reads at least one character. *)
Definition reads_some (fl : flags) (r : regex) : Prop :=
  forall st st', In st' (ms fl r st) -> length (rest st') < length (rest st).

Lemma expand_nil st : expand [] st = [].
Proof. reflexivity. Qed.

Lemma flat_map_expand_nil hs : flat_map (expand []) hs = [].
Proof. induction hs as [|h hs IH]; [reflexivity|exact IH]. Qed.

(** Deleting matches never makes the text longer. *)
Lemma sub_delete_length fl r : forall s p k,
  length (sub_loop fl r [] p s k) <= length s.
Proof.
  induction s as [|c tl IH]; intros p k.
  - destruct k; cbn [sub_loop]; [|simpl; lia].
    rewrite flat_map_expand_nil. simpl. lia.
  - destruct k as [|k]; cbn [sub_loop].
    + rewrite flat_map_expand_nil. cbn [app].
      destruct (hits_width _ _) as [|j]; cbn [length].
      * specialize (IH (Some c) 0). lia.
      * specialize (IH (Some c) j). lia.
    + specialize (IH (Some c) k). cbn [length]. lia.
Qed.

Lemma hits_reads_some fl r st st1 l :
  reads_some fl r -> ms fl r st = st1 :: l ->
  hits fl r st = [st1] /\ 0 < width st st1.
Proof.
  intros Hr E. unfold hits. rewrite E.
  assert (H : length (rest st1) < length (rest st)).
  { apply Hr. rewrite E. now left. }
  unfold width. destruct (length (rest st) - length (rest st1)) eqn:W; [lia|].
  split; [reflexivity|lia].
Qed.

(** Deleting the matches of a pattern that is found makes the text
    shorter. *)
Lemma sub_delete_shrinks fl r : reads_some fl r -> forall s p i m,
  search_from fl r p s i = Some m ->
  length (sub_loop fl r [] p s 0) < length s.
Proof.
  intros Hr. induction s as [|c tl IH]; intros p i m H; cbn [search_from] in H.
  - destruct (ms fl r (MState p [] [])) as [|st1 l] eqn:E; [discriminate|].
    assert (Hin : In st1 (ms fl r (MState p [] []))) by (rewrite E; now left).
    apply Hr in Hin. simpl in Hin. lia.
  - cbn [sub_loop]. rewrite flat_map_expand_nil. cbn [app].
    destruct (ms fl r (MState p (c :: tl) [])) as [|st1 l] eqn:E.
    + unfold hits. rewrite E. cbn [hits_width rev length].
      apply IH in H. lia.
    + destruct (hits_reads_some fl r _ st1 l Hr E) as (-> & Hw).
      unfold hits_width. cbn [rev app].
      destruct (width _ st1) as [|j]; [lia|].
      pose proof (sub_delete_length fl r tl (Some c) j). cbn [length]. lia.
Qed.

Lemma lit_reads_some fl c w r :
  reads_some fl (Cat (lit_text (c :: w)) r).
Proof.
  intros st st' H. apply in_ms_cat in H. destruct H as (mid & H1 & H2).
  apply in_ms_lit in H1. destruct H1 as (v & Ev & Hv).
  apply ms_suffix in H2. destruct H2 as (w2 & E2).
  apply Forall2_length_eq in Hv.
  rewrite Ev, E2, !length_app. simpl in Hv. lia.
Qed.

Lemma line_comment_reads_some : reads_some M line_comment_re.
Proof. apply (lit_reads_some M "-" (T "-")). Qed.

Lemma block_comment_reads_some : reads_some S_ block_comment_re.
Proof. apply (lit_reads_some S_ "/" (T "*")). Qed.

Lemma novalidate_reads_some : reads_some I novalidate_re.
Proof.
  intros st st' H. unfold novalidate_re in H. cbn [cat] in H.
  apply in_ms_cat in H. destruct H as (mid & H1 & H2).
  assert (E : rest mid = rest st).
  { simpl in H1. destruct (xorb _ _); [|contradiction].
    destruct H1 as [<-|[]]. reflexivity. }
  rewrite <- E. revert H2. apply (lit_reads_some I "N" (T "OVALIDATE")).
Qed.

Lemma rstrip_length s : length (rstrip s) <= length s.
Proof.
  unfold rstrip. rewrite length_rev.
  pose proof (lstrip_length (rev s)). now rewrite length_rev in H.
Qed.

Lemma strip_length s : length (strip s) <= length s.
Proof.
  unfold strip. pose proof (rstrip_length (lstrip s)).
  pose proof (lstrip_length s). lia.
Qed.

Lemma squeeze_length : forall s b, length (squeeze b s) <= length s.
Proof.
  induction s as [|c tl IH]; intros b; [simpl; lia|].
  cbn [squeeze]. destruct (is_space c); [destruct b|]; cbn [length].
  - specialize (IH true). lia.
  - specialize (IH true). lia.
  - specialize (IH false). lia.
Qed.

Lemma normalize_ws_length s : length (normalize_ws s) <= length s.
Proof.
  unfold normalize_ws. rewrite sub_spaces_squeeze.
  pose proof (strip_length (squeeze false s)).
  pose proof (squeeze_length s false). lia.
Qed.

(** A text in which one of the three removal patterns still matches is
    made shorter by the preprocessing stage. *)
Lemma preprocess_shrinks t :
  re_search M line_comment_re t <> None
  \/ re_search S_ block_comment_re t <> None
  \/ re_search I novalidate_re t <> None ->
  length (preprocess t) < length t.
Proof.
  intros H. unfold preprocess. fold (normalize_ws
    (re_sub I novalidate_re []
       (re_sub S_ block_comment_re [] (re_sub M line_comment_re [] t)))).
  set (t1 := re_sub M line_comment_re [] t).
  set (t2 := re_sub S_ block_comment_re [] t1).
  set (t3 := re_sub I novalidate_re [] t2).
  pose proof (normalize_ws_length t3) as L4.
  assert (L3 : length t3 <= length t2) by apply sub_delete_length.
  assert (L2 : length t2 <= length t1) by apply sub_delete_length.
  assert (L1 : length t1 <= length t) by apply sub_delete_length.
  destruct (re_search M line_comment_re t) as [m|] eqn:E1.
  { pose proof (sub_delete_shrinks M _ line_comment_reads_some t None 0 m E1).
    fold (re_sub M line_comment_re [] t) in H0. fold t1 in H0. lia. }
  assert (Et1 : t1 = t) by now apply re_search_none_sub.
  destruct (re_search S_ block_comment_re t) as [m|] eqn:E2.
  { rewrite <- Et1 in E2.
    pose proof (sub_delete_shrinks S_ _ block_comment_reads_some t1 None 0 m E2).
    fold (re_sub S_ block_comment_re [] t1) in H0. fold t2 in H0. lia. }
  assert (Et2 : t2 = t).
  { unfold t2. rewrite Et1. now apply re_search_none_sub. }
  destruct (re_search I novalidate_re t) as [m|] eqn:E3.
  { rewrite <- Et2 in E3.
    pose proof (sub_delete_shrinks I _ novalidate_reads_some t2 None 0 m E3).
    fold (re_sub I novalidate_re [] t2) in H0. fold t3 in H0. lia. }
  destruct H as [H|[H|H]]; now elim H.
Qed.

(** Once preprocessed, a text is a fixed point of the stage exactly when
    none of the three removal patterns matches in it. *)
Lemma preprocess_settled_iff s :
  preprocess (preprocess s) = preprocess s
  <-> re_search M line_comment_re (preprocess s) = None
      /\ re_search S_ block_comment_re (preprocess s) = None
      /\ re_search I novalidate_re (preprocess s) = None.
Proof.
  split.
  - intros E.
    assert (H : ~ length (preprocess (preprocess s)) < length (preprocess s))
      by (rewrite E; lia).
    repeat split;
      match goal with |- ?x = None =>
        destruct x eqn:Ex; [|reflexivity];
        elim H; apply preprocess_shrinks; rewrite ?Ex; intuition discriminate
      end.
  - intros (H1 & H2 & H3). unfold preprocess at 1.
    rewrite (re_search_none_sub _ _ _ _ H1), (re_search_none_sub _ _ _ _ H2),
      (re_search_none_sub _ _ _ _ H3).
    apply normalize_ws_idem.
Qed.

(** The error text is returned only when the header search fails. *)
Lemma sentinel_only_without_header sql :
  convert_oracle_to_sqlite sql = error_sentinel ->
  re_search I header_re (preprocess sql) = None.
Proof.
  intros H.
  destruct (extract_create_table_block (preprocess sql)) as [[name block]|] eqn:E.
  - pose proof (extract_block_nonempty _ _ _ E) as Hlen.
    unfold convert_oracle_to_sqlite in H. rewrite E in H.
    destruct block as [|b block]; [simpl in Hlen; lia|].
    now apply assemble_not_sentinel in H.
  - unfold extract_create_table_block in E.
    destruct (re_search I header_re (preprocess sql)); [discriminate|reflexivity].
Qed.

End ShrinkFacts.

(* ================================================================== *)
(** ** The claims *)

Module Claims.
Import Chars Re Ddl Spec Samples ReFacts WsFacts HeaderFacts LoopFacts
  SplitFacts ShrinkFacts.

(** C3.  For CREATE TABLE "S"."T" (ID NUMBER(10) DEFAULT SEQ.NEXTVAL,
    NAME VARCHAR2(10)) together with ALTER TABLE "S"."T" ADD CONSTRAINT PK
    PRIMARY KEY (ID), in any of the three arrangements of [seq_inputs],
    the output is the statement below: it contains the item
    [ID INTEGER PRIMARY KEY AUTOINCREMENT] and no [PRIMARY KEY (ID)]
    clause, and the loop ends with the pending key cleared. *)
Theorem sequence_default_consumes_key :
  Forall (fun input =>
    let out := convert_oracle_to_sqlite input in
    out = lines [T "CREATE TABLE IF NOT EXISTS T (";
                 T "  ID INTEGER PRIMARY KEY AUTOINCREMENT,";
                 T "  NAME TEXT";
                 T ");"]
    /\ contains (T "ID INTEGER PRIMARY KEY AUTOINCREMENT") out = true
    /\ contains (T "PRIMARY KEY (ID)") out = false) seq_inputs
  /\ rewrite_items (Some (T "ID"))
       [T "ID NUMBER(10) DEFAULT SEQ.NEXTVAL"; T "NAME VARCHAR2(10)"]
     = LoopState None [T "ID INTEGER PRIMARY KEY AUTOINCREMENT"; T "NAME TEXT"].
Proof.
  split; [|vm_compute; reflexivity].
  unfold seq_inputs.
  repeat (apply Forall_cons; [vm_compute; auto|]).
  apply Forall_nil.
Qed.

(** C9.  The end-to-end example: the output starts with
    [CREATE TABLE IF NOT EXISTS EMP (], has the items [ID INTEGER NOT NULL]
    and [NAME TEXT], and keeps the CHECK clause without ENABLE. *)
Theorem emp_example :
  let out := convert_oracle_to_sqlite emp_input in
  out = lines [T "CREATE TABLE IF NOT EXISTS EMP (";
               T "  ID INTEGER NOT NULL,";
               T "  NAME TEXT,";
               T "  CHECK (NAME IS NOT NULL)";
               T ");"]
  /\ starts_with (T "CREATE TABLE IF NOT EXISTS EMP (") out = true
  /\ contains (T "ID INTEGER NOT NULL") out = true
  /\ contains (T "NAME TEXT") out = true
  /\ contains (T "CHECK (NAME IS NOT NULL)") out = true
  /\ contains (T "ENABLE") out = false.
Proof. vm_compute. repeat split; reflexivity. Qed.

(** C1.  On a CHECK whose IN-list holds NULL between other elements the
    rewrite leaves an empty list element behind and tests the fixed name
    NEGATION, not the tested expression STATUS; an IN-list that ends in
    NULL is not rewritten at all. *)
Theorem in_null_rewrite_uses_fixed_name :
  convert_oracle_to_sqlite in_null_input
  = lines [T "CREATE TABLE IF NOT EXISTS T (";
           T "  STATUS TEXT CHECK (STATUS IN ('A', , 'B') OR NEGATION IS NULL)";
           T ");"]
  /\ contains (T "STATUS IS NULL") (convert_oracle_to_sqlite in_null_input) = false
  /\ clean_item (T "C CHAR(1) CHECK (C IN ('Y', NULL))")
     = T "C CHAR(1) CHECK (C IN ('Y', NULL))".
Proof. vm_compute. repeat split; reflexivity. Qed.

(** C2.  The splitter cuts at every comma that is not followed by a
    closing parenthesis before the next opening one.  So a comma inside a
    call that is followed by another opening parenthesis is taken as an
    item separator: the column B is cut in two.  The commas of
    NUMBER(10,2), of CHECK (x IN (1,2,3)) and of a STORAGE clause do not
    split. *)
Theorem nested_comma_before_paren_splits :
  (forall block,
     split_items block
     = map strip (split_commas []
                    (slice (find "(" block + 1) (rfind ")" block) block)))
  /\ split_items (T "CREATE TABLE T (A NUMBER, B NUMBER DEFAULT NVL(A, ABS(A)))")
  = [T "A NUMBER"; T "B NUMBER DEFAULT NVL(A"; T "ABS(A))"]
  /\ convert_oracle_to_sqlite nested_call_input
     = lines [T "CREATE TABLE IF NOT EXISTS T (";
              T "  A INTEGER,";
              T "  B INTEGER DEFAULT NVL(A,";
              T "  ABS(A))";
              T ");"]
  /\ split_items
       (T "CREATE TABLE T (AMOUNT NUMBER(10,2), X NUMBER CHECK (X IN (1,2,3)), Y NUMBER STORAGE (INITIAL 1, NEXT 2))")
     = [T "AMOUNT NUMBER(10,2)"; T "X NUMBER CHECK (X IN (1,2,3))";
        T "Y NUMBER STORAGE (INITIAL 1, NEXT 2)"].
Proof.
  split; [exact split_items_scan|].
  vm_compute. repeat split; reflexivity.
Qed.

(** C7.  A block comment that contains two dashes loses its end to the
    line-comment pattern, which runs first; what is left of the comment
    reaches the output. *)
Theorem dashed_block_comment_survives :
  preprocess dashed_comment_input
  = T "CREATE TABLE S.T (A NUMBER /* legacy , B NUMBER)"
  /\ convert_oracle_to_sqlite dashed_comment_input
     = lines [T "CREATE TABLE IF NOT EXISTS T (";
              T "  A INTEGER /* legacy,";
              T "  B INTEGER";
              T ");"]
  /\ contains (T "/* legacy") (convert_oracle_to_sqlite dashed_comment_input) = true.
Proof. vm_compute. repeat split; reflexivity. Qed.

(** C4.  When the header pattern matches nowhere in the preprocessed
    text, the result is exactly the text
    [-- ERROR: CREATE TABLE block not found]. *)
Theorem no_header_gives_sentinel sql :
  re_search I header_re (preprocess sql) = None ->
  convert_oracle_to_sqlite sql = error_sentinel.
Proof.
  intros H. unfold convert_oracle_to_sqlite, extract_create_table_block.
  now rewrite H.
Qed.

Lemma no_header_gives_sentinel_witness :
  convert_oracle_to_sqlite (T "SELECT COUNT(*) FROM DUAL -- no table here")
  = T "-- ERROR: CREATE TABLE block not found".
Proof.
  apply (no_header_gives_sentinel
           (T "SELECT COUNT(*) FROM DUAL -- no table here")).
  vm_compute. reflexivity.
Defined.

(** C10.  When no CREATE TABLE of the preprocessed text is followed by a
    dot-separated schema qualifier, the result is the error text, also
    when an unqualified CREATE TABLE header is there. *)
Theorem unqualified_header_is_rejected sql :
  has_qualified_header (preprocess sql) = false ->
  convert_oracle_to_sqlite sql = error_sentinel.
Proof.
  intros H. apply unqualified_no_header in H.
  unfold convert_oracle_to_sqlite, extract_create_table_block.
  now rewrite H.
Qed.

Lemma unqualified_header_is_rejected_witness :
  starts_with (T "CREATE TABLE T (") unqualified_input = true
  /\ convert_oracle_to_sqlite unqualified_input
     = T "-- ERROR: CREATE TABLE block not found".
Proof.
  split; [reflexivity|].
  apply (unqualified_header_is_rejected unqualified_input).
  vm_compute. reflexivity.
Defined.

(** C8.  With a pending key [pk] from an ALTER TABLE statement and no
    item that is a sequence-backed column named [pk], every item keeps its
    plain form and [PRIMARY KEY (pk)] is appended after them. *)
Theorem pending_key_becomes_trailing_clause sql pk name block :
  extract_primary_key (preprocess sql) = Some pk ->
  nonempty pk = true ->
  extract_create_table_block (preprocess sql) = Some (name, block) ->
  forallb (fun item => negb (claims_key pk item)) (split_items (unquote block))
  = true ->
  convert_oracle_to_sqlite sql
  = T "CREATE TABLE IF NOT EXISTS " ++ name ++ T " (" ++ nl ++ T "  "
    ++ join (T "," ++ nl ++ T "  ")
         (filter nonempty (map plain_item (split_items (unquote block)))
          ++ [T "PRIMARY KEY (" ++ pk ++ T ")"])
    ++ nl ++ T ");".
Proof.
  intros Hpk Hne Hblock Hitems. unfold convert_oracle_to_sqlite.
  pose proof (extract_block_nonempty _ _ _ Hblock) as Hlen.
  rewrite Hblock, Hpk.
  destruct block as [|b block]; [simpl in Hlen; lia|].
  rewrite (rewrite_items_plain pk _ Hitems).
  destruct pk as [|c pk]; [discriminate|]. reflexivity.
Qed.

Lemma pending_key_becomes_trailing_clause_witness :
  convert_oracle_to_sqlite plain_input
  = lines [T "CREATE TABLE IF NOT EXISTS T (";
           T "  ID INTEGER,";
           T "  NAME TEXT,";
           T "  PRIMARY KEY (ID)";
           T ");"].
Proof.
  rewrite (pending_key_becomes_trailing_clause plain_input (T "ID") (T "T")
             create_plain); vm_compute; reflexivity.
Defined.

(** C5 (as the code has it).  NUMBER(5,0) maps to INTEGER, NUMBER(5,2) to
    REAL, VARCHAR2(50) to TEXT, DATE to TEXT and BLOB to BLOB; the case of
    the token does not matter; a token that meets no row of the table
    comes back converted to upper case. *)
Theorem map_oracle_type_table :
  map_oracle_type (T "NUMBER(5,0)") = T "INTEGER"
  /\ map_oracle_type (T "NUMBER(5,2)") = T "REAL"
  /\ map_oracle_type (T "VARCHAR2(50)") = T "TEXT"
  /\ map_oracle_type (T "DATE") = T "TEXT"
  /\ map_oracle_type (T "BLOB") = T "BLOB"
  /\ (forall t, map_oracle_type (upper t) = map_oracle_type t)
  /\ (forall t, no_space t = true -> listed_type (upper t) = false ->
                map_oracle_type t = upper t).
Proof.
  split; [vm_compute; reflexivity|].
  split; [vm_compute; reflexivity|].
  split; [vm_compute; reflexivity|].
  split; [vm_compute; reflexivity|].
  split; [vm_compute; reflexivity|].
  split; [exact map_oracle_type_upper|exact map_oracle_type_unlisted].
Qed.

Lemma map_oracle_type_table_witness :
  map_oracle_type (T "Float") = T "FLOAT".
Proof.
  apply (proj2 (proj2 (proj2 (proj2 (proj2 (proj2 map_oracle_type_table)))))
           (T "Float")); vm_compute; reflexivity.
Defined.

(** C5 as stated fails: [float] meets no row of the table and is not
    returned unchanged. *)
Lemma unlisted_type_is_upper_cased :
  listed_type (upper (T "float")) = false
  /\ map_oracle_type (T "float") = T "FLOAT"
  /\ map_oracle_type (T "float") <> T "float".
Proof.
  split; [vm_compute; reflexivity|].
  split; [vm_compute; reflexivity|].
  vm_compute. discriminate.
Qed.

(** C6 (as the code has it).  A second run of the preprocessing stage
    changes nothing when the first run has left nothing for the two comment
    patterns and the NOVALIDATE pattern to match. *)
Theorem preprocess_idempotent_when_settled s :
  re_search M line_comment_re (preprocess s) = None ->
  re_search S_ block_comment_re (preprocess s) = None ->
  re_search I novalidate_re (preprocess s) = None ->
  preprocess (preprocess s) = preprocess s.
Proof.
  intros H1 H2 H3. unfold preprocess at 1.
  rewrite (re_search_none_sub _ _ _ _ H1), (re_search_none_sub _ _ _ _ H2),
    (re_search_none_sub _ _ _ _ H3).
  apply normalize_ws_idem.
Qed.

Lemma preprocess_idempotent_when_settled_witness :
  preprocess (preprocess
    (T "  CREATE   TABLE a.b /* c */ (x  NUMBER NOVALIDATE) -- d"))
  = T "CREATE TABLE a.b (x NUMBER )".
Proof.
  rewrite (preprocess_idempotent_when_settled
    (T "  CREATE   TABLE a.b /* c */ (x  NUMBER NOVALIDATE) -- d"));
    vm_compute; reflexivity.
Defined.

(** C6 as stated fails: removing a block comment can bring two dashes
    together, which only a second run removes. *)
Lemma preprocess_not_idempotent :
  preprocess (T "-/* x */-") = T "--"
  /\ preprocess (preprocess (T "-/* x */-")) = []
  /\ preprocess (preprocess (T "-/* x */-")) <> preprocess (T "-/* x */-").
Proof.
  split; [vm_compute; reflexivity|].
  split; [vm_compute; reflexivity|].
  vm_compute. discriminate.
Qed.

End Claims.

(* ================================================================== *)
(** ** Further facts: the preprocessing stage *)

Module PreFacts.
Import Chars Re Ddl Spec Reference ReFacts WsFacts HeaderFacts LoopFacts ShrinkFacts.

(** Deleting matches only removes characters. *)
Lemma sub_delete_chars fl r c : forall s p k,
  In c (sub_loop fl r [] p s k) -> In c s.
Proof.
  induction s as [|x tl IH]; intros p k H.
  - destruct k; cbn [sub_loop] in H; [|contradiction].
    now rewrite flat_map_expand_nil in H.
  - destruct k as [|k]; cbn [sub_loop] in H.
    + rewrite flat_map_expand_nil in H. cbn [app] in H.
      destruct (hits_width _ _) as [|j].
      * destruct H as [<-|H]; [now left|]. right. eapply IH, H.
      * right. eapply IH, H.
    + right. eapply IH, H.
Qed.

Lemma squeeze_chars c : forall s b,
  In c (squeeze b s) -> In c s \/ c = " "%char.
Proof.
  induction s as [|x tl IH]; intros b H; [contradiction|].
  cbn [squeeze] in H. destruct (is_space x).
  - destruct b.
    + destruct (IH _ H); [left; now right|now right].
    + destruct H as [<-|H]; [now right|].
      destruct (IH _ H); [left; now right|now right].
  - destruct H as [<-|H]; [left; now left|].
    destruct (IH _ H); [left; now right|now right].
Qed.

Lemma lstrip_chars c s : In c (lstrip s) -> In c s.
Proof.
  destruct (lstrip_suffix s) as (w & H & _). intros Hin.
  rewrite H. apply in_or_app. now right.
Qed.

Lemma rstrip_chars c s : In c (rstrip s) -> In c s.
Proof.
  destruct (rstrip_prefix s) as (z & H). intros Hin.
  rewrite H. apply in_or_app. now left.
Qed.

Lemma strip_chars c s : In c (strip s) -> In c s.
Proof. intros H. now apply lstrip_chars, rstrip_chars. Qed.

Lemma preprocess_chars c s :
  In c (preprocess s) -> In c s \/ c = " "%char.
Proof.
  unfold preprocess. intros H. apply strip_chars in H.
  rewrite sub_spaces_squeeze in H. apply squeeze_chars in H.
  destruct H as [H|H]; [left|now right].
  now apply sub_delete_chars, sub_delete_chars, sub_delete_chars in H.
Qed.

Lemma squeezed_spaces s c :
  squeezed s = true -> In c s -> is_space c = true -> c = " "%char.
Proof.
  induction s as [|x tl IH]; intros H Hin Hc; [contradiction|].
  cbn [squeezed] in H. apply andb_prop in H. destruct H as (H1 & H2).
  destruct Hin as [->|Hin]; [|now apply IH].
  rewrite Hc in H1. apply andb_prop in H1. destruct H1 as (H1 & _).
  now apply Ascii.eqb_eq in H1.
Qed.

Lemma squeezed_no_double s :
  squeezed s = true -> contains (T "  ") s = false.
Proof.
  induction s as [|x tl IH]; intros H; [reflexivity|].
  cbn [contains]. rewrite (IH (squeezed_tail _ _ H)), orb_false_r.
  cbn [squeezed] in H. apply andb_prop in H. destruct H as (H1 & _).
  change (T "  ") with [" "%char; " "%char]. cbn [starts_with].
  destruct (eqc " " x) eqn:Ex; [|reflexivity].
  apply Ascii.eqb_eq in Ex. subst x. cbn in H1.
  destruct tl as [|y tl]; [reflexivity|]. cbn [andb].
  destruct (eqc " " y) eqn:Ey; [|reflexivity].
  apply Ascii.eqb_eq in Ey. subst y. discriminate H1.
Qed.

Lemma preprocess_squeezed s : squeezed (preprocess s) = true.
Proof.
  unfold preprocess. rewrite sub_spaces_squeeze.
  apply squeezed_strip, squeeze_squeezed.
Qed.

Lemma preprocess_length s : length (preprocess s) <= length s.
Proof.
  unfold preprocess.
  fold (normalize_ws
    (re_sub I novalidate_re []
       (re_sub S_ block_comment_re [] (re_sub M line_comment_re [] s)))).
  set (t1 := re_sub M line_comment_re [] s).
  set (t2 := re_sub S_ block_comment_re [] t1).
  set (t3 := re_sub I novalidate_re [] t2).
  pose proof (normalize_ws_length t3).
  assert (length t3 <= length t2) by apply sub_delete_length.
  assert (length t2 <= length t1) by apply sub_delete_length.
  assert (length t1 <= length s) by apply sub_delete_length.
  lia.
Qed.

End PreFacts.

(* ================================================================== *)
(** ** Further facts: parentheses, the block scan and the splitter *)

Module ParenFacts.
Import Chars Re Ddl Spec Reference ReFacts SplitFacts.

Lemma scan_block_bound : forall s d, scan_block d s <= length s.
Proof.
  induction s as [|c tl IH]; intros d; destruct d; cbn [scan_block length];
    try lia.
  match goal with |- S (scan_block ?x tl) <= _ => specialize (IH x) end. lia.
Qed.

(** Over a balanced stretch the scan keeps going. *)
Lemma scan_block_bal : forall body k d tail,
  bal k body = true ->
  scan_block (S d + k) (body ++ tail) = length body + scan_block (S d) tail.
Proof.
  induction body as [|c body IH]; intros k d tail H.
  - cbn [bal] in H. apply Nat.eqb_eq in H. subst k.
    now rewrite Nat.add_0_r.
  - cbn [bal] in H. cbn [app length]. rewrite Nat.add_succ_l.
    cbn [scan_block]. rewrite Nat.add_succ_l. f_equal.
    destruct (eqc c "(").
    + rewrite <- (IH (S k) d tail H). f_equal. lia.
    + destruct (eqc c ")").
      * destruct k as [|k]; [discriminate|].
        rewrite <- (IH k d tail H). f_equal. lia.
      * apply (IH k d tail H).
Qed.

Lemma scan_block_no_close : forall s d,
  ~ In ")"%char s -> scan_block (S d) s = length s.
Proof.
  induction s as [|c tl IH]; intros d H; [reflexivity|].
  cbn [scan_block length]. f_equal.
  destruct (eqc c "(").
  - apply IH. intros Hin. apply H. now right.
  - destruct (eqc c ")") eqn:E.
    + apply Ascii.eqb_eq in E. subst c. elim H. now left.
    + apply IH. intros Hin. apply H. now right.
Qed.

(** *** The splitter *)

Lemma split_commas_not_nil : forall s cur, split_commas cur s <> [].
Proof.
  induction s as [|c tl IH]; intros cur; cbn [split_commas]; [discriminate|].
  destruct (_ && _); [discriminate|apply IH].
Qed.

Lemma join_cons sep x l :
  l <> [] -> join sep (x :: l) = x ++ sep ++ join sep l.
Proof. destruct l; [contradiction|reflexivity]. Qed.

(** Joining the pieces with commas gives the text back. *)
Lemma join_split_commas : forall s cur,
  join (T ",") (split_commas cur s) = rev cur ++ s.
Proof.
  induction s as [|c tl IH]; intros cur; cbn [split_commas].
  - cbn. now rewrite app_nil_r.
  - destruct (eqc c ",") eqn:Ec; cbn [andb].
    + destruct (negb (close_before_open tl)).
      * rewrite join_cons by apply split_commas_not_nil.
        rewrite IH. apply Ascii.eqb_eq in Ec. subst c. reflexivity.
      * rewrite IH. cbn [rev]. now rewrite <- app_assoc.
    + rewrite IH. cbn [rev]. now rewrite <- app_assoc.
Qed.

Lemma shallow_close : forall s,
  (shallow 0 s = true -> close_before_open s = false)
  /\ (shallow 1 s = true -> close_before_open s = true).
Proof.
  induction s as [|c tl (IH0 & IH1)]; cbn [shallow close_before_open].
  - split; [reflexivity|discriminate].
  - destruct (eqc c ")") eqn:Ec.
    + assert (eqc c "(" = false) as ->.
      { apply Ascii.eqb_eq in Ec. subst c. reflexivity. }
      split; [discriminate|reflexivity].
    + destruct (eqc c "("); [|split; assumption].
      split; [reflexivity|discriminate].
Qed.

Lemma shallow_deep : forall s n, 2 <= n -> shallow n s = false.
Proof.
  induction s as [|x tl IH]; intros n Hn; cbn [shallow].
  - apply Nat.eqb_neq. lia.
  - assert (E0 : (n =? 0) = false) by (apply Nat.eqb_neq; lia).
    assert (E1 : (n =? 1) = false) by (apply Nat.eqb_neq; lia).
    rewrite E0, E1. cbn [andb].
    destruct (eqc x "("); [reflexivity|].
    destruct (eqc x ")"); [reflexivity|]. now apply IH.
Qed.

(** On text whose parentheses do not nest, the comma pattern cuts
    exactly at depth 0. *)
Lemma split_commas_shallow : forall s d cur,
  shallow d s = true -> split_commas cur s = split_top d cur s.
Proof.
  induction s as [|c tl IH]; intros d cur H; [reflexivity|].
  cbn [shallow] in H. cbn [split_commas split_top].
  destruct (eqc c ",") eqn:Ec.
  - assert (E1 : eqc c "(" = false).
    { apply Ascii.eqb_eq in Ec. subst c. reflexivity. }
    assert (E2 : eqc c ")" = false).
    { apply Ascii.eqb_eq in Ec. subst c. reflexivity. }
    rewrite E1, E2 in H |- *. cbn [andb].
    destruct d as [|[|d]].
    + rewrite (proj1 (shallow_close tl) H). cbn. f_equal. now apply IH.
    + rewrite (proj2 (shallow_close tl) H). cbn. now apply IH.
    + rewrite shallow_deep in H by lia. discriminate.
  - cbn [andb]. destruct (eqc c "(").
    + apply andb_prop in H. destruct H as (Hd & H).
      apply Nat.eqb_eq in Hd. subst d. now apply IH.
    + destruct (eqc c ")").
      * apply andb_prop in H. destruct H as (Hd & H).
        apply Nat.eqb_eq in Hd. subst d. now apply IH.
      * now apply IH.
Qed.

End ParenFacts.

(* ================================================================== *)
(** ** Further facts: the item loop *)

Module ItemFacts.
Import Chars Re Ddl Spec Reference ReFacts WsFacts HeaderFacts LoopFacts.

(** *** Tokens of [split] *)

Lemma no_space_rev t : no_space (rev t) = no_space t.
Proof.
  unfold no_space. destruct (forallb _ t) eqn:E.
  - rewrite forallb_forall in *. intros x Hx. apply E. now apply in_rev.
  - destruct (forallb _ (rev t)) eqn:E'; [|reflexivity].
    rewrite <- E. symmetry. rewrite forallb_forall in *.
    intros x Hx. apply E'. now apply in_rev in Hx.
Qed.

Lemma split_ws_aux_tokens : forall s cur tok,
  no_space cur = true -> In tok (split_ws_aux cur s) ->
  tok <> [] /\ no_space tok = true.
Proof.
  induction s as [|c tl IH]; intros cur tok Hc Hin; cbn [split_ws_aux] in Hin.
  - destruct cur as [|x cur]; [contradiction|].
    destruct Hin as [<-|[]]. split.
    + intros E. apply (f_equal (@length ascii)) in E.
      rewrite length_rev in E. discriminate.
    + now rewrite no_space_rev.
  - destruct (is_space c) eqn:Es.
    + destruct cur as [|x cur]; [now apply (IH [])|].
      destruct Hin as [<-|Hin]; [|now apply (IH [])]. split.
      * intros E. apply (f_equal (@length ascii)) in E.
        rewrite length_rev in E. discriminate.
      * now rewrite no_space_rev.
    + apply (IH (c :: cur)); [|exact Hin].
      unfold no_space in *. cbn [forallb]. now rewrite Es, Hc.
Qed.

(** Every token is non-empty and free of whitespace. *)
Lemma split_ws_tokens s tok :
  In tok (split_ws s) -> tok <> [] /\ no_space tok = true.
Proof. now apply split_ws_aux_tokens. Qed.

(** *** Trimming *)

Lemma strip_head s :
  match strip s with [] => True | c :: _ => is_space c = false end.
Proof.
  unfold strip. pose proof (lstrip_head s) as Hy.
  destruct (rstrip_prefix (lstrip s)) as (z & Hz).
  destruct (rstrip (lstrip s)) as [|c r]; [exact Logic.I|].
  rewrite Hz in Hy. exact Hy.
Qed.

Lemma lstrip_char_head x s :
  match lstrip_char x s with [] => True | c :: _ => eqc c x = false end.
Proof.
  induction s as [|c tl IH]; cbn [lstrip_char]; [exact Logic.I|].
  destruct (eqc c x) eqn:E; [exact IH|exact E].
Qed.

Lemma lstrip_char_suffix x s : exists w, s = w ++ lstrip_char x s.
Proof.
  induction s as [|c tl (w & IH)]; cbn [lstrip_char]; [now exists []|].
  destruct (eqc c x); [|now exists []].
  exists (c :: w). cbn. now f_equal.
Qed.

Lemma rstrip_char_prefix x s : exists z, s = rstrip_char x s ++ z.
Proof.
  unfold rstrip_char. destruct (lstrip_char_suffix x (rev s)) as (w & H).
  exists (rev w). rewrite <- rev_app_distr, <- H. now rewrite rev_involutive.
Qed.

Lemma rstrip_char_no_comma s : ends_with_comma (rstrip_char "," s) = false.
Proof.
  unfold ends_with_comma, rstrip_char. rewrite rev_involutive.
  pose proof (lstrip_char_head "," (rev s)) as H.
  destruct (lstrip_char "," (rev s)); [reflexivity|exact H].
Qed.

Lemma rstrip_char_strip_head X :
  starts_with_space (rstrip_char "," (strip X)) = false.
Proof.
  pose proof (strip_head X) as H.
  destruct (rstrip_char_prefix "," (strip X)) as (z & Hz).
  destruct (rstrip_char "," (strip X)) as [|c r]; [reflexivity|].
  rewrite Hz in H. exact H.
Qed.

Lemma rstrip_last s c : is_space c = false -> rstrip (s ++ [c]) = s ++ [c].
Proof.
  intros H. unfold rstrip. rewrite rev_app_distr. cbn [rev app lstrip].
  rewrite H. cbn [rev]. now rewrite rev_involutive.
Qed.

Lemma rstrip_char_last x s c :
  eqc c x = false -> rstrip_char x (s ++ [c]) = s ++ [c].
Proof.
  intros H. unfold rstrip_char. rewrite rev_app_distr. cbn [rev app lstrip_char].
  rewrite H. cbn [rev]. now rewrite rev_involutive.
Qed.

(** The rewritten key column is left alone by the final trimming. *)
Lemma autoincrement_item_trim col :
  col <> [] -> no_space col = true ->
  rstrip_char "," (strip (col ++ T " INTEGER PRIMARY KEY AUTOINCREMENT"))
  = col ++ T " INTEGER PRIMARY KEY AUTOINCREMENT".
Proof.
  intros Hne Hs.
  change (T " INTEGER PRIMARY KEY AUTOINCREMENT")
    with (T " INTEGER PRIMARY KEY AUTOINCREMEN" ++ ["T"%char]).
  rewrite app_assoc. unfold strip.
  rewrite lstrip_fixed.
  - rewrite rstrip_last by reflexivity. now apply rstrip_char_last.
  - destruct col as [|c col]; [contradiction|]. cbn [app].
    unfold no_space in Hs. cbn [forallb] in Hs.
    apply andb_prop in Hs. destruct Hs as (Hc & _).
    now apply negb_true_iff in Hc.
Qed.

(** *** One turn of the loop *)

(** An item that takes the key becomes the AUTOINCREMENT column and
    clears the pending key. *)
Lemma loop_body_takes pk acc item :
  claims_key pk item = true ->
  loop_body (LoopState (Some pk) acc) item
  = LoopState None
      (acc ++ [column_name item ++ T " INTEGER PRIMARY KEY AUTOINCREMENT"]).
Proof.
  unfold claims_key, loop_body, column_name.
  cbn [primary_key_field cleaned_items].
  destruct (split_ws (clean_item item)) as [|col_name [|ty more]] eqn:E;
    try discriminate.
  intros H. rewrite H.
  assert (Hin : In col_name (split_ws (clean_item item)))
    by (rewrite E; now left).
  apply split_ws_tokens in Hin. destruct Hin as (Hne & Hs).
  rewrite (autoincrement_item_trim col_name Hne Hs).
  destruct col_name as [|c col_name]; [contradiction|]. reflexivity.
Qed.

(** Without a usable pending key no item is rewritten. *)
Lemma loop_body_no_key pk acc item :
  truthy pk = false ->
  loop_body (LoopState pk acc) item
  = LoopState pk (acc ++ filter nonempty [plain_item item]).
Proof.
  intros Hpk. unfold loop_body, plain_item.
  cbn [primary_key_field cleaned_items].
  destruct (split_ws (clean_item item)) as [|col_name [|ty more]].
  - destruct (rstrip_char "," (strip (clean_item item))); cbn [filter nonempty];
      now rewrite ?app_nil_r.
  - destruct (rstrip_char "," (strip (clean_item item))); cbn [filter nonempty];
      now rewrite ?app_nil_r.
  - unfold takes_key. rewrite Hpk, andb_false_r. cbn [andb].
    destruct (rstrip_char "," _); cbn [filter nonempty]; now rewrite ?app_nil_r.
Qed.

Lemma fold_loop_no_key pk : forall items acc,
  truthy pk = false ->
  fold_left loop_body items (LoopState pk acc)
  = LoopState pk (acc ++ filter nonempty (map plain_item items)).
Proof.
  induction items as [|item items IH]; intros acc H.
  - cbn. now rewrite app_nil_r.
  - cbn [fold_left map]. rewrite (loop_body_no_key pk acc item H), (IH _ H).
    f_equal. rewrite <- app_assoc. f_equal.
    cbn [filter]. destruct (nonempty (plain_item item)); reflexivity.
Qed.

Lemma claims_key_truthy pk item : claims_key pk item = true -> nonempty pk = true.
Proof.
  unfold claims_key.
  destruct (split_ws (clean_item item)) as [|c [|ty more]]; try discriminate.
  unfold takes_key. intros H.
  apply andb_prop in H. destruct H as (H & _).
  apply andb_prop in H. destruct H as (_ & H).
  destruct pk; [discriminate|reflexivity].
Qed.

(** The first item that takes the key is the only one rewritten. *)
Lemma rewrite_items_first_taker pk pre item post :
  forallb (fun it => negb (claims_key pk it)) pre = true ->
  claims_key pk item = true ->
  rewrite_items (Some pk) (pre ++ item :: post)
  = LoopState None
      (filter nonempty (map plain_item pre)
       ++ [column_name item ++ T " INTEGER PRIMARY KEY AUTOINCREMENT"]
       ++ filter nonempty (map plain_item post)).
Proof.
  intros Hpre Hitem. unfold rewrite_items.
  rewrite fold_left_app, (fold_loop_plain pk pre [] Hpre).
  cbn [fold_left app]. rewrite (loop_body_takes pk _ item Hitem).
  rewrite (fold_loop_no_key None post _ eq_refl).
  now rewrite <- app_assoc.
Qed.

(** *** What the loop keeps *)

Lemma loop_body_shape st item :
  exists pk' X,
    loop_body st item
    = LoopState pk'
        (cleaned_items st ++ filter nonempty [rstrip_char "," (strip X)])
    /\ (pk' = primary_key_field st \/ pk' = None).
Proof.
  unfold loop_body.
  destruct (split_ws (clean_item item)) as [|col_name [|ty more]].
  - exists (primary_key_field st), (clean_item item). split; [|now left].
    destruct (rstrip_char "," _); cbn [filter nonempty]; now rewrite ?app_nil_r.
  - exists (primary_key_field st), (clean_item item). split; [|now left].
    destruct (rstrip_char "," _); cbn [filter nonempty]; now rewrite ?app_nil_r.
  - destruct (takes_key _ _ _).
    + exists None, (col_name ++ T " INTEGER PRIMARY KEY AUTOINCREMENT").
      split; [|now right].
      destruct (rstrip_char "," _); cbn [filter nonempty]; now rewrite ?app_nil_r.
    + eexists (primary_key_field st), _. split; [|now left].
      destruct (rstrip_char "," (strip (strip _))) eqn:E;
        cbn [filter nonempty]; rewrite E; cbn [filter nonempty];
        now rewrite ?app_nil_r.
Qed.

Lemma tidy_trimmed X :
  Forall tidy (filter nonempty [rstrip_char "," (strip X)]).
Proof.
  cbn [filter]. destruct (nonempty _) eqn:E; [|constructor].
  constructor; [|constructor]. repeat split.
  - exact E.
  - apply rstrip_char_no_comma.
  - apply rstrip_char_strip_head.
Qed.

Lemma fold_loop_tidy : forall items st,
  Forall tidy (cleaned_items st) ->
  Forall tidy (cleaned_items (fold_left loop_body items st))
  /\ (primary_key_field (fold_left loop_body items st) = primary_key_field st
      \/ primary_key_field (fold_left loop_body items st) = None).
Proof.
  induction items as [|item items IH]; intros st H; [split; [exact H|now left]|].
  cbn [fold_left].
  destruct (loop_body_shape st item) as (pk' & X & E & Hpk).
  destruct (IH (loop_body st item)) as (IH1 & IH2).
  - rewrite E. cbn [cleaned_items]. apply Forall_app. split; [exact H|].
    apply tidy_trimmed.
  - split; [exact IH1|].
    rewrite E in IH2. cbn [primary_key_field] in IH2. rewrite <- E in IH2.
    destruct IH2 as [IH2|IH2]; [|now right].
    rewrite IH2. destruct Hpk as [->| ->]; [now left|now right].
Qed.

End ItemFacts.

(* ================================================================== *)
(** ** Further facts: where the characters of a result come from *)

Module CharFacts.
Import Chars Re Ddl Spec Reference ReFacts WsFacts HeaderFacts LoopFacts
  ShrinkFacts PreFacts ItemFacts.

(** A captured group is a piece of the text being matched. *)
Lemma ms_caps fl r : forall st st' n w,
  In st' (ms fl r st) -> In (n, w) (caps st') ->
  In (n, w) (caps st) \/ incl w (rest st).
Proof.
  induction r; intros st st' k w H Hc.
  - destruct H as [<-|[]]. now left.
  - simpl in H. destruct (rest st) as [|c tl]; [contradiction|].
    destruct (cset_mem fl cs c); [|contradiction].
    destruct H as [<-|[]]. now left.
  - assert (H' : In st' (bounded lo hi (runs fl cs (prev st) (rest st) (caps st)))).
    { simpl in H. destruct greedy; auto. now apply in_rev in H. }
    apply in_bounded in H'. destruct H' as (n & _ & _ & H').
    apply nth_runs in H'. destruct H' as (_ & _ & _ & E & _).
    rewrite E in Hc. now left.
  - apply in_ms_cat in H. destruct H as (mid & H1 & H2).
    destruct (IHr2 _ _ _ _ H2 Hc) as [Hm|Hm].
    + exact (IHr1 _ _ _ _ H1 Hm).
    + right. apply ms_suffix in H1. destruct H1 as (v & ->).
      intros x Hx. apply in_or_app. right. now apply Hm.
  - simpl in H. apply in_app_or in H. destruct H; eauto.
  - simpl in H. apply in_map_iff in H. destruct H as (x & <- & H).
    cbn [set_cap caps] in Hc. destruct Hc as [Hc|Hc].
    + injection Hc as _ <-. right. unfold consumed.
      intros y Hy. rewrite <- (firstn_skipn (length (rest st) - length (rest x)) (rest st)).
      apply in_or_app. now left.
    + exact (IHr _ _ _ _ H Hc).
  - simpl in H. destruct (xorb _ _); [|contradiction].
    destruct H as [<-|[]]. now left.
  - simpl in H. destruct (rest st) as [|c tl].
    + destruct H as [<-|[]]. now left.
    + destruct (_ && _); [|contradiction]. destruct H as [<-|[]]. now left.
  - simpl in H. destruct (ms fl r st); [|contradiction].
    destruct H as [<-|[]]. now left.
Qed.

Lemma hits_in fl r st h : In h (hits fl r st) -> In h (ms fl r st).
Proof.
  unfold hits. destruct (ms fl r st) as [|st1 others]; [contradiction|].
  destruct (width st st1 =? 0).
  - intros [<-|H]; [now left|]. right.
    destruct (filter _ others) as [|st2 l] eqn:E; [contradiction|].
    destruct H as [<-|[]].
    assert (Hin : In st2 (filter (fun x => negb (width st x =? 0)) others))
      by (rewrite E; now left).
    now apply filter_In in Hin.
  - intros [<-|[]]. now left.
Qed.

Lemma lookup_cap_in n g w : lookup_cap n g = Some w -> In (n, w) g.
Proof.
  induction g as [|[k v] g IH]; [discriminate|]. cbn [lookup_cap].
  destruct (k =? n) eqn:E.
  - intros H. injection H as <-. apply Nat.eqb_eq in E. subst k. now left.
  - intros H. right. now apply IH.
Qed.

(** A replacement expands to template literals and pieces of the text. *)
Lemma expand_chars tpl st c :
  In c (expand tpl st) ->
  In c (tpl_chars tpl) \/ exists n w, In (n, w) (caps st) /\ In c w.
Proof.
  unfold expand, tpl_chars. induction tpl as [|t tpl IH]; [contradiction|].
  cbn [flat_map]. intros H. apply in_app_or in H. destruct H as [H|H].
  - destruct t as [w|n]; cbn [expand_item] in H.
    + left. apply in_or_app. now left.
    + destruct (lookup_cap n (caps st)) as [w|] eqn:E; [|contradiction].
      right. exists n, w. split; [now apply lookup_cap_in|exact H].
  - destruct (IH H) as [H'|H']; [|now right].
    left. apply in_or_app. now right.
Qed.

(** [re.sub] only produces characters of its argument and of the
    template. *)
Lemma sub_chars fl r tpl c : forall s p k,
  In c (sub_loop fl r tpl p s k) -> In c s \/ In c (tpl_chars tpl).
Proof.
  assert (Hexp : forall s p, In c (flat_map (expand tpl)
                                     (hits fl r (MState p s []))) ->
                             In c s \/ In c (tpl_chars tpl)).
  { intros s p H. apply in_flat_map in H. destruct H as (h & Hh & Hc).
    apply expand_chars in Hc. destruct Hc as [Hc|(n & w & Hw & Hc)]; [now right|].
    apply hits_in in Hh.
    destruct (ms_caps fl r _ _ n w Hh Hw) as [[]|Hi].
    left. now apply Hi. }
  induction s as [|x tl IH]; intros p k H.
  - destruct k; cbn [sub_loop] in H; [|contradiction].
    rewrite app_nil_r in H. now apply Hexp in H.
  - destruct k as [|k]; cbn [sub_loop] in H.
    + apply in_app_or in H. destruct H as [H|H]; [now apply Hexp in H|].
      destruct (hits_width _ _) as [|j].
      * destruct H as [<-|H]; [left; now left|].
        destruct (IH _ _ H); [left; now right|now right].
      * destruct (IH _ _ H); [left; now right|now right].
    + destruct (IH _ _ H); [left; now right|now right].
Qed.

Lemma re_sub_forallb f fl r tpl s :
  forallb f s = true -> forallb f (tpl_chars tpl) = true ->
  forallb f (re_sub fl r tpl s) = true.
Proof.
  rewrite !forallb_forall. intros Hs Ht c Hc.
  apply sub_chars in Hc. destruct Hc; auto.
Qed.

(** *** Double quotes *)

Lemma clean_item_no_dquote item :
  no_dquote item = true -> no_dquote (clean_item item) = true.
Proof.
  intros H. unfold clean_item, no_dquote in *.
  repeat (apply re_sub_forallb; [|reflexivity]). exact H.
Qed.

Lemma forallb_incl {A} (f : A -> bool) l l' :
  incl l' l -> forallb f l = true -> forallb f l' = true.
Proof. rewrite !forallb_forall. intros Hi H x Hx. apply H, Hi, Hx. Qed.

Lemma slice_incl a b s : incl (slice a b s) s.
Proof.
  unfold slice. intros c Hc.
  set (n := Z.to_nat _) in Hc. set (k := Z.to_nat _) in Hc.
  rewrite <- (firstn_skipn k s). apply in_or_app. right.
  rewrite <- (firstn_skipn n (skipn k s)). apply in_or_app. now left.
Qed.

Lemma split_commas_incl : forall s cur piece,
  In piece (split_commas cur s) -> incl piece (rev cur ++ s).
Proof.
  induction s as [|c tl IH]; intros cur piece H; cbn [split_commas] in H.
  - destruct H as [<-|[]]. now rewrite app_nil_r.
  - destruct (_ && _).
    + destruct H as [<-|H].
      * intros x Hx. apply in_or_app. now left.
      * apply IH in H. intros x Hx. apply in_or_app. right. right.
        exact (H x Hx).
    + apply IH in H. cbn [rev] in H. now rewrite <- app_assoc in H.
Qed.

Lemma split_items_incl block item :
  In item (split_items block) -> incl item block.
Proof.
  unfold split_items. rewrite SplitFacts.re_split_commas. intros H.
  apply in_map_iff in H. destruct H as (piece & <- & H).
  apply split_commas_incl in H. cbn [rev app] in H.
  intros c Hc. apply strip_chars in Hc. apply H in Hc.
  now apply slice_incl in Hc.
Qed.

Lemma unquote_no_dquote block : no_dquote (unquote block) = true.
Proof.
  unfold unquote, remove_char, no_dquote. apply forallb_forall.
  intros c Hc. now apply filter_In in Hc.
Qed.

Lemma split_items_no_dquote block item :
  In item (split_items (unquote block)) -> no_dquote item = true.
Proof.
  intros H. apply split_items_incl in H.
  exact (forallb_incl _ _ _ H (unquote_no_dquote block)).
Qed.

Lemma split_ws_aux_incl : forall s cur tok,
  In tok (split_ws_aux cur s) -> incl tok (rev cur ++ s).
Proof.
  induction s as [|c tl IH]; intros cur tok H; cbn [split_ws_aux] in H.
  - destruct cur as [|x cur]; [contradiction|].
    destruct H as [<-|[]]. now rewrite app_nil_r.
  - destruct (is_space c).
    + assert (Htl : In tok (split_ws_aux [] tl) -> incl tok (rev cur ++ c :: tl)).
      { intros H'. apply IH in H'. intros x Hx. apply in_or_app. right. right.
        exact (H' x Hx). }
      destruct cur as [|x cur]; [now apply Htl|].
      destruct H as [<-|H]; [|now apply Htl].
      intros y Hy. apply in_or_app. now left.
    + apply IH in H. cbn [rev] in H. now rewrite <- app_assoc in H.
Qed.

Lemma split_ws_incl s tok : In tok (split_ws s) -> incl tok s.
Proof. intros H. now apply split_ws_aux_incl in H. Qed.

Lemma to_upper_dquote c : eqc (to_upper c) dquote = eqc c dquote.
Proof. each_ascii c; reflexivity. Qed.

Lemma upper_no_dquote t : no_dquote (upper t) = no_dquote t.
Proof.
  unfold no_dquote, upper. induction t as [|c t IH]; [reflexivity|].
  cbn [map forallb]. now rewrite IH, to_upper_dquote.
Qed.

Lemma starts_with_eq : forall a b,
  length a = length b -> starts_with a b = true -> a = b.
Proof.
  induction a as [|x a IH]; intros [|y b] Hl H; try discriminate; [reflexivity|].
  cbn [starts_with] in H. apply andb_prop in H. destruct H as (Hx & H).
  apply Ascii.eqb_eq in Hx. subst y. f_equal. apply IH; [|exact H].
  simpl in Hl. lia.
Qed.

Lemma text_eqb_eq a b : text_eqb a b = true -> a = b.
Proof.
  unfold text_eqb. intros H. apply andb_prop in H. destruct H as (Hl & H).
  apply Nat.eqb_eq in Hl. now apply starts_with_eq.
Qed.

(** A key written in double quotes matches no column name. *)
Lemma quoted_key_unclaimed pk item :
  no_dquote pk = false -> no_dquote item = true -> claims_key pk item = false.
Proof.
  intros Hpk Hitem. unfold claims_key.
  destruct (split_ws (clean_item item)) as [|col_name [|ty more]] eqn:E;
    try reflexivity.
  unfold takes_key.
  destruct (text_eqb (upper col_name) (upper pk)) eqn:Eq;
    [|now rewrite andb_false_r].
  apply text_eqb_eq in Eq. exfalso.
  assert (Hc : no_dquote col_name = true).
  { apply (forallb_incl _ (clean_item item)).
    - apply split_ws_incl. rewrite E. now left.
    - now apply clean_item_no_dquote. }
  rewrite <- upper_no_dquote, Eq, upper_no_dquote in Hc. congruence.
Qed.

End CharFacts.

(* ================================================================== *)
(** ** Further facts: what the header search returns *)

Module ExtractFacts.
Import Chars Re Ddl Spec Reference ReFacts WsFacts HeaderFacts LoopFacts
  ShrinkFacts PreFacts ItemFacts CharFacts.

Lemma quant_caps fl cs lo hi g st st' :
  In st' (ms fl (Quant cs lo hi g) st) -> caps st' = caps st.
Proof.
  intros H.
  assert (H' : In st' (bounded lo hi (runs fl cs (prev st) (rest st) (caps st)))).
  { simpl in H. destruct g; auto. now apply in_rev in H. }
  apply in_bounded in H'. destruct H' as (n & _ & _ & H').
  apply nth_runs in H'. now destruct H' as (_ & _ & _ & E & _).
Qed.

Lemma chars_caps fl cs st st' :
  In st' (ms fl (Chars cs) st) -> caps st' = caps st.
Proof.
  simpl. destruct (rest st) as [|c tl]; [contradiction|].
  destruct (cset_mem fl cs c); [|contradiction].
  now intros [<-|[]].
Qed.

Lemma consumed_app st x w : rest st = w ++ rest x -> consumed st x = w.
Proof.
  intros E. unfold consumed. rewrite E, length_app.
  replace (length w + length (rest x) - length (rest x)) with (length w) by lia.
  rewrite firstn_app, Nat.sub_diag, firstn_all. cbn. apply app_nil_r.
Qed.

(** A group that repeats a class captures what the repetition read. *)
Lemma group_quant fl n cs lo hi g st st' :
  In st' (ms fl (Group n (Quant cs lo hi g)) st) ->
  exists w, rest st = w ++ rest st' /\ lo <= length w
            /\ forallb (cset_mem fl cs) w = true
            /\ caps st' = (n, w) :: caps st.
Proof.
  simpl ms. intros H. apply in_map_iff in H. destruct H as (x & <- & H).
  change (In x (ms fl (Quant cs lo hi g) st)) in H.
  pose proof (quant_caps _ _ _ _ _ _ _ H) as Ec.
  apply in_ms_quant in H. destruct H as (w & E & L & _ & A).
  exists w. cbn [set_cap rest caps]. repeat split; auto.
  now rewrite (consumed_app st x w E), Ec.
Qed.

(** The second group of a header match is a non-empty identifier. *)
Lemma header_match_name st st' :
  In st' (ms I header_re st) ->
  exists w, lookup_cap 2 (caps st') = Some w /\ w <> []
            /\ forallb is_word w = true.
Proof.
  unfold header_re. cbn [cat]. intros H.
  apply in_ms_cat in H. destruct H as (m1 & _ & H).
  apply in_ms_cat in H. destruct H as (m2 & _ & H).
  apply in_ms_cat in H. destruct H as (m3 & _ & H).
  apply in_ms_cat in H. destruct H as (m4 & _ & H).
  apply in_ms_cat in H. destruct H as (m5 & _ & H).
  apply in_ms_cat in H. destruct H as (m6 & _ & H).
  apply in_ms_cat in H. destruct H as (m7 & _ & H).
  apply in_ms_cat in H. destruct H as (m8 & H8 & H).
  apply in_ms_cat in H. destruct H as (m9 & H9 & H).
  apply in_ms_cat in H. destruct H as (m10 & H10 & H).
  apply group_quant in H8. destruct H8 as (w & _ & L & A & Ec).
  apply quant_caps in H9. apply quant_caps in H10. apply chars_caps in H.
  exists w. rewrite H, H10, H9, Ec. cbn [lookup_cap Nat.eqb].
  split; [reflexivity|]. split.
  - destruct w; [simpl in L; lia|discriminate].
  - rewrite <- A. clear. induction w as [|a w IH]; [reflexivity|].
    cbn [forallb]. now rewrite IH, ident_is_word.
Qed.

Lemma slice_parts a b s : exists pre post, s = pre ++ slice a b s ++ post.
Proof.
  unfold slice. set (n := Z.to_nat _). set (k := Z.to_nat _).
  exists (firstn k s), (skipn n (skipn k s)).
  now rewrite firstn_skipn, firstn_skipn.
Qed.

Lemma starts_with_ci_firstn p : forall s n,
  length p <= n -> starts_with_ci p s = true ->
  starts_with_ci p (firstn n s) = true.
Proof.
  induction p as [|x p IH]; intros s n Hn H; [reflexivity|].
  destruct s as [|c s]; [discriminate|].
  destruct n as [|n]; [simpl in Hn; lia|].
  cbn [firstn starts_with_ci] in *.
  apply andb_prop in H. destruct H as (-> & H). cbn [andb].
  apply IH; [simpl in Hn; lia|exact H].
Qed.

(** What a found block looks like. *)
Lemma extract_results sql name block :
  extract_create_table_block sql = Some (name, block) ->
  name <> [] /\ forallb is_word name = true
  /\ starts_with_ci (T "CREATE TABLE") block = true
  /\ exists pre post, sql = pre ++ block ++ post.
Proof.
  unfold extract_create_table_block.
  destruct (re_search I header_re sql) as [m|] eqn:E; [|discriminate].
  intros H. injection H as <- <-.
  apply search_from_some in E.
  destruct E as (pre & s' & p' & st' & l & -> & Hm & Hs & He & Hc).
  assert (Hin : In st' (ms I header_re (MState p' s' []))) by (rewrite Hm; now left).
  destruct (header_match_name _ _ Hin) as (w & Hw & Hne & Hall).
  apply header_match_qualified in Hin. cbn [rest] in Hin.
  destruct Hin as (Hkw & _ & Hlen).
  unfold group. rewrite Hc, Hw. repeat split; auto.
  - unfold slice, clamp_index.
    destruct (Z.ltb_spec (Z.of_nat (m_start m)) 0); [lia|].
    destruct (Z.ltb_spec
                (Z.of_nat (m_end m + scan_block 1 (skipn (m_end m) (pre ++ s')))) 0);
      [lia|].
    rewrite Hs. cbn [Nat.add].
    replace (Z.to_nat (Z.min (Z.of_nat (length pre))
                             (Z.of_nat (length (pre ++ s'))))) with (length pre)
      by (rewrite length_app; lia).
    rewrite (skipn_app (length pre)), skipn_all, Nat.sub_diag. cbn [app skipn].
    apply starts_with_ci_firstn; [|exact Hkw].
    change (length (T "CREATE TABLE")) with 12.
    rewrite ?length_app in *. lia.
  - apply slice_parts.
Qed.

(** *** Double quotes in the result *)

Lemma no_dquote_app a b : no_dquote (a ++ b) = no_dquote a && no_dquote b.
Proof. apply forallb_app. Qed.

Lemma no_dquote_incl a b : incl a b -> no_dquote b = true -> no_dquote a = true.
Proof. apply forallb_incl. Qed.

Lemma no_dquote_strip s : no_dquote s = true -> no_dquote (strip s) = true.
Proof. apply no_dquote_incl. intros c. apply strip_chars. Qed.

Lemma no_dquote_rstrip_char x s :
  no_dquote s = true -> no_dquote (rstrip_char x s) = true.
Proof.
  apply no_dquote_incl. destruct (rstrip_char_prefix x s) as (z & Hz).
  intros c Hc. rewrite Hz. apply in_or_app. now left.
Qed.

Lemma no_dquote_join sep : forall l,
  no_dquote sep = true -> Forall (fun x => no_dquote x = true) l ->
  no_dquote (join sep l) = true.
Proof.
  induction l as [|x l IH]; intros Hs Hl; [reflexivity|].
  inversion Hl as [|? ? Hx Hl']; subst.
  destruct l as [|y l]; [exact Hx|].
  change (join sep (x :: y :: l)) with (x ++ sep ++ join sep (y :: l)).
  rewrite !no_dquote_app, Hx, Hs, (IH Hs Hl'). reflexivity.
Qed.

Lemma word_no_dquote w : forallb is_word w = true -> no_dquote w = true.
Proof.
  unfold no_dquote. induction w as [|c w IH]; [reflexivity|].
  cbn [forallb]. intros H. apply andb_prop in H. destruct H as (Hc & H).
  now rewrite (word_not_dquote c Hc), IH.
Qed.

Lemma map_oracle_type_no_dquote t :
  no_dquote t = true -> no_dquote (map_oracle_type t) = true.
Proof.
  intros H. unfold map_oracle_type.
  repeat match goal with
         | |- no_dquote (if ?b then _ else _) = true => destruct b; [reflexivity|]
         end.
  apply re_sub_forallb; [|reflexivity].
  fold (no_dquote (upper t)). now rewrite upper_no_dquote.
Qed.

Lemma loop_body_no_dquote st item :
  no_dquote item = true ->
  Forall (fun x => no_dquote x = true) (cleaned_items st) ->
  Forall (fun x => no_dquote x = true) (cleaned_items (loop_body st item)).
Proof.
  intros Hitem Hacc.
  pose proof (clean_item_no_dquote item Hitem) as Hc.
  assert (Htok : forall tok, In tok (split_ws (clean_item item)) ->
                             no_dquote tok = true).
  { intros tok Hin. apply (no_dquote_incl _ (clean_item item)); [|exact Hc].
    now apply split_ws_incl. }
  assert (Hkeep : forall pk X, no_dquote X = true ->
            Forall (fun x => no_dquote x = true)
              (cleaned_items
                 (match rstrip_char "," (strip X) with
                  | [] => LoopState pk (cleaned_items st)
                  | _ :: _ => LoopState pk
                      (cleaned_items st ++ [rstrip_char "," (strip X)])
                  end))).
  { intros pk X HX.
    pose proof (no_dquote_rstrip_char "," _ (no_dquote_strip X HX)) as Hr.
    destruct (rstrip_char "," (strip X)); cbn [cleaned_items]; [exact Hacc|].
    apply Forall_app. split; [exact Hacc|]. now constructor. }
  unfold loop_body.
  destruct (split_ws (clean_item item)) as [|col_name [|ty more]] eqn:E.
  - now apply Hkeep.
  - now apply Hkeep.
  - assert (H1 : no_dquote col_name = true) by (apply Htok; now left).
    assert (H2 : no_dquote ty = true) by (apply Htok; right; now left).
    assert (H3 : Forall (fun x => no_dquote x = true) more).
    { apply Forall_forall. intros x Hx. apply Htok. right. now right. }
    destruct (takes_key _ _ _).
    + apply Hkeep. now rewrite no_dquote_app, H1.
    + apply Hkeep. apply no_dquote_strip.
      rewrite !no_dquote_app, H1, (map_oracle_type_no_dquote ty H2).
      now rewrite (no_dquote_join (T " ") more eq_refl H3).
Qed.

Lemma fold_loop_no_dquote : forall items st,
  Forall (fun x => no_dquote x = true) items ->
  Forall (fun x => no_dquote x = true) (cleaned_items st) ->
  Forall (fun x => no_dquote x = true)
    (cleaned_items (fold_left loop_body items st)).
Proof.
  induction items as [|item items IH]; intros st Hi Hacc; [exact Hacc|].
  inversion Hi as [|? ? Hx Hi']; subst. cbn [fold_left].
  apply IH; [exact Hi'|]. now apply loop_body_no_dquote.
Qed.

Lemma assemble_no_dquote name st :
  no_dquote name = true ->
  Forall (fun x => no_dquote x = true) (cleaned_items st) ->
  no_dquote (key_text (primary_key_field st)) = true ->
  no_dquote (assemble name st) = true.
Proof.
  intros Hname Hkept Hpk. unfold assemble.
  assert (Hitems : Forall (fun x => no_dquote x = true)
            match primary_key_field st with
            | Some (c :: pk) =>
                cleaned_items st ++ [T "PRIMARY KEY (" ++ c :: pk ++ T ")"]
            | _ => cleaned_items st
            end).
  { destruct (primary_key_field st) as [[|c pk]|]; try exact Hkept.
    apply Forall_app. split; [exact Hkept|]. constructor; [|constructor].
    cbn [key_text] in Hpk.
    change (c :: pk ++ T ")") with ((c :: pk) ++ T ")").
    now rewrite !no_dquote_app, Hpk. }
  rewrite !no_dquote_app, Hname.
  rewrite (no_dquote_join (T "," ++ [newline] ++ T "  ") _ eq_refl Hitems).
  reflexivity.
Qed.

End ExtractFacts.

(* ================================================================== *)
(** ** Further facts: building matches *)

Module MatchIntro.
Import Chars Re Ddl Spec Reference ReFacts WsFacts HeaderFacts LoopFacts.

(** [r] can read from [s] up to [s']. *)
Definition can (fl : flags) (r : regex) (s s' : text) : Prop :=
  forall st, rest st = s -> exists st', In st' (ms fl r st) /\ rest st' = s'.

Lemma can_chars fl cs c tl :
  cset_mem fl cs c = true -> can fl (Chars cs) (c :: tl) tl.
Proof.
  intros H st E. simpl ms. rewrite E, H. eexists. split; [now left|reflexivity].
Qed.

Lemma runs_nth fl cs : forall w r p g,
  forallb (cset_mem fl cs) w = true ->
  exists p', nth_error (runs fl cs p (w ++ r) g) (length w)
             = Some (MState p' r g).
Proof.
  induction w as [|c w IH]; intros r p g H.
  - exists p. destruct r; reflexivity.
  - cbn [forallb] in H. apply andb_prop in H. destruct H as (Hc & H).
    cbn [app length runs nth_error]. rewrite Hc. now apply IH.
Qed.

Lemma nth_in_bounded lo hi (l : list mstate) n x :
  nth_error l n = Some x -> lo <= n -> within hi n -> In x (bounded lo hi l).
Proof.
  intros H Hlo Hhi. unfold bounded.
  apply (nth_error_In _ (n - lo)). rewrite nth_error_skipn.
  replace (lo + (n - lo)) with n by lia.
  destruct hi as [h|]; [|exact H].
  rewrite nth_error_firstn. simpl in Hhi.
  destruct (Nat.ltb_spec n (S h)); [exact H|lia].
Qed.

Lemma can_quant fl cs lo hi g w r :
  forallb (cset_mem fl cs) w = true -> lo <= length w -> within hi (length w) ->
  can fl (Quant cs lo hi g) (w ++ r) r.
Proof.
  intros Hw Hlo Hhi st E.
  destruct (runs_nth fl cs w r (prev st) (caps st) Hw) as (p' & Hn).
  exists (MState p' r (caps st)). split; [|reflexivity].
  simpl ms. rewrite E.
  pose proof (nth_in_bounded lo hi _ _ _ Hn Hlo Hhi) as Hin.
  destruct g; [now apply in_rev in Hin|exact Hin].
Qed.

Lemma can_cat fl a b s s1 s2 :
  can fl a s s1 -> can fl b s1 s2 -> can fl (Cat a b) s s2.
Proof.
  intros Ha Hb st E. destruct (Ha st E) as (mid & Hm & Em).
  destruct (Hb mid Em) as (st' & Hs & Es).
  exists st'. split; [|exact Es]. simpl ms. apply in_flat_map. eauto.
Qed.

Lemma can_group fl n a s s' : can fl a s s' -> can fl (Group n a) s s'.
Proof.
  intros Ha st E. destruct (Ha st E) as (x & Hx & Ex).
  exists (set_cap n (consumed st x) x). split; [|exact Ex].
  simpl ms. apply in_map_iff. eauto.
Qed.

Lemma can_lit fl : forall w v r,
  Forall2 (fun x c => cset_mem fl (CChr x) c = true) w v ->
  can fl (lit_text w) (v ++ r) r.
Proof.
  induction w as [|x w IH]; intros v r H.
  - inversion H; subst. intros st E. exists st. split; [now left|exact E].
  - inversion H as [|? c ? v' Hc Hv]; subst.
    destruct w as [|y w].
    + inversion Hv; subst. now apply can_chars.
    + change (lit_text (x :: y :: w))
        with (Cat (Chars (CChr x)) (lit_text (y :: w))).
      eapply can_cat; [now apply can_chars|]. now apply IH.
Qed.

Lemma mem_self fl x : cset_mem fl (CChr x) x = true.
Proof. simpl. destruct (ignorecase fl); apply Ascii.eqb_refl. Qed.

Lemma can_lit_exact fl w r : can fl (lit_text w) (w ++ r) r.
Proof.
  apply can_lit. induction w; constructor; [apply mem_self|assumption].
Qed.

Lemma can_match fl r s s' :
  can fl r s s' -> is_some (re_match fl r s) = true.
Proof.
  intros H. destruct (H (MState None s []) eq_refl) as (st' & Hin & _).
  unfold re_match. destruct (ms fl r _); [contradiction|reflexivity].
Qed.

Lemma no_match fl r s :
  (forall st', ~ In st' (ms fl r (MState None s []))) ->
  is_some (re_match fl r s) = false.
Proof.
  intros H. unfold re_match.
  destruct (ms fl r _) as [|x l]; [reflexivity|]. elim (H x). now left.
Qed.

(** *** Runs are determined by what follows them *)

Lemma span_unique (P : ascii -> bool) : forall a b X Y,
  forallb P a = true -> forallb P b = true ->
  hd_fails P X -> hd_fails P Y ->
  a ++ X = b ++ Y -> a = b /\ X = Y.
Proof.
  induction a as [|x a IH]; intros [|y b] X Y Ha Hb HX HY E; cbn [app] in E.
  - now split.
  - subst X. cbn [forallb] in Hb. apply andb_prop in Hb.
    simpl in HX. destruct Hb. congruence.
  - subst Y. cbn [forallb] in Ha. apply andb_prop in Ha.
    simpl in HY. destruct Ha. congruence.
  - injection E as -> E. cbn [forallb] in Ha, Hb.
    apply andb_prop in Ha. apply andb_prop in Hb.
    destruct (IH b X Y (proj2 Ha) (proj2 Hb) HX HY E) as (-> & ->).
    now split.
Qed.

Lemma app_same_length {A} : forall (a b X Y : list A),
  length a = length b -> a ++ X = b ++ Y -> a = b /\ X = Y.
Proof.
  induction a as [|x a IH]; intros [|y b] X Y Hl E; try discriminate.
  - now split.
  - injection E as -> E. simpl in Hl.
    destruct (IH b X Y (eq_add_S _ _ Hl) E) as (-> & ->). now split.
Qed.

Lemma hd_fails_cons P c X : P c = false -> hd_fails P (c :: X).
Proof. exact (fun H => H). Qed.

Lemma hd_fails_run (Q P : ascii -> bool) w X :
  forallb Q w = true -> (forall c, Q c = true -> P c = false) ->
  hd_fails P X -> hd_fails P (w ++ X).
Proof.
  destruct w as [|c w]; intros Hw HQ HX; [exact HX|].
  cbn [forallb] in Hw. apply andb_prop in Hw. apply HQ, Hw.
Qed.

Lemma hd_fails_run1 (Q P : ascii -> bool) w X :
  w <> [] -> forallb Q w = true -> (forall c, Q c = true -> P c = false) ->
  hd_fails P (w ++ X).
Proof.
  destruct w as [|c w]; intros Hne Hw HQ; [contradiction|].
  cbn [forallb] in Hw. apply andb_prop in Hw. apply HQ, Hw.
Qed.

End MatchIntro.

(* ================================================================== *)
(** ** Further facts: NUMBER types *)

Module NumberFacts.
Import Chars Re Ddl Spec Reference ReFacts WsFacts HeaderFacts LoopFacts
  MatchIntro.

Lemma digit_upper c : is_digit c = true -> to_upper c = c.
Proof. each_ascii c; vm_compute; intros H; try discriminate; reflexivity. Qed.

Lemma digit_not_space c : is_digit c = true -> is_space c = false.
Proof. each_ascii c; vm_compute; intros H; try discriminate; reflexivity. Qed.

Lemma upper_digits p : forallb is_digit p = true -> upper p = p.
Proof.
  induction p as [|c p IH]; [reflexivity|]. cbn [forallb]. intros H.
  apply andb_prop in H. destruct H as (Hc & H).
  unfold upper in *. cbn [map]. now rewrite (digit_upper c Hc), IH.
Qed.

Lemma no_space_digits p : forallb is_digit p = true -> no_space p = true.
Proof.
  induction p as [|c p IH]; [reflexivity|]. cbn [forallb]. intros H.
  apply andb_prop in H. destruct H as (Hc & H).
  unfold no_space in *. cbn [forallb]. now rewrite (digit_not_space c Hc), IH.
Qed.

Lemma upper_app a b : upper (a ++ b) = upper a ++ upper b.
Proof. apply map_app. Qed.

Lemma no_space_app a b : no_space (a ++ b) = no_space a && no_space b.
Proof. apply forallb_app. Qed.

Lemma digits_parts p :
  digits p = true -> p <> [] /\ forallb is_digit p = true.
Proof.
  unfold digits. intros H. apply andb_prop in H. destruct H as (Hn & H).
  split; [|exact H]. destruct p; [discriminate|discriminate].
Qed.

Lemma mem_exact x c : cset_mem no_flags (CChr x) c = true -> c = x.
Proof. simpl. apply Ascii.eqb_eq. Qed.

Lemma spaces_before_nonspace w R c X :
  forallb is_space w = true -> w ++ R = c :: X -> is_space c = false ->
  w = [] /\ R = c :: X.
Proof.
  destruct w as [|x w]; intros Hw E Hc; [now split|].
  injection E as -> _. cbn [forallb] in Hw. apply andb_prop in Hw.
  destruct Hw. congruence.
Qed.

(** The text [NUMBER(p,s)] as the patterns read it. *)
Definition number2 (p s : text) : text :=
  T "NUMBER" ++ "("%char :: p ++ ","%char :: s ++ [")"%char].
Definition number1 (p : text) : text :=
  T "NUMBER" ++ "("%char :: p ++ [")"%char].

Lemma digits_then p d c x R R' :
  forallb is_digit p = true -> forallb is_digit d = true ->
  is_digit c = false -> is_digit x = false ->
  p ++ c :: R = d ++ x :: R' -> c = x /\ R = R'.
Proof.
  intros Hp Hd Hc Hx E.
  destruct (span_unique is_digit p d (c :: R) (x :: R') Hp Hd Hc Hx E)
    as (_ & E'). injection E' as -> ->. now split.
Qed.

(** What the start [NUMBER\s*\(\d+] of the three patterns reads of a text
    that begins with [NUMBER(p]. *)
Lemma number_head_read REST st st' X :
  rest st = T "NUMBER" ++ "("%char :: X ->
  In st' (ms no_flags
            (Cat (lit "NUMBER")
               (Cat (star CSpace) (Cat (ch "(") (Cat (plus CDigit) REST)))) st) ->
  exists mid d,
    forallb is_digit d = true /\ X = d ++ rest mid
    /\ In st' (ms no_flags REST mid).
Proof.
  intros E H.
  apply in_ms_cat in H. destruct H as (m1 & H1 & H).
  apply in_ms_lit in H1. destruct H1 as (v & Ev & Hv).
  apply Forall2_length_eq in Hv. rewrite E in Ev.
  destruct (app_same_length _ _ _ _ Hv Ev) as (_ & E1).
  apply in_ms_cat in H. destruct H as (m2 & H2 & H).
  apply in_ms_quant in H2. destruct H2 as (w & Ew & _ & _ & Aw).
  rewrite <- E1 in Ew. symmetry in Ew.
  destruct (spaces_before_nonspace _ _ _ _ Aw Ew eq_refl) as (_ & E2).
  apply in_ms_cat in H. destruct H as (m3 & H3 & H).
  apply in_ms_chars in H3. destruct H3 as (c3 & E3 & _).
  rewrite E2 in E3. injection E3 as _ E3.
  apply in_ms_cat in H. destruct H as (m4 & H4 & H).
  apply in_ms_quant in H4. destruct H4 as (d & Ed & _ & _ & Ad).
  exists m4, d. rewrite <- E3 in Ed. auto.
Qed.

(** [NUMBER\s*\(\d+,\s*\d+\)] does not match [NUMBER(p)]. *)
Lemma number_ps_not_number1 p :
  forallb is_digit p = true ->
  is_some (re_match no_flags number_ps_re (number1 p)) = false.
Proof.
  intros Hp. apply no_match. intros st' H.
  unfold number_ps_re in H. cbn [cat] in H.
  apply (number_head_read _ (MState None (number1 p) []) st'
           (p ++ [")"%char]) eq_refl) in H.
  destruct H as (mid & d & Hd & E & H).
  apply in_ms_cat in H. destruct H as (m5 & H5 & _).
  apply in_ms_chars in H5. destruct H5 as (x & Ex & Hx).
  apply mem_exact in Hx. subst x. rewrite Ex in E.
  destruct (digits_then p d ")" "," [] (rest m5) Hp Hd eq_refl eq_refl E)
    as (E' & _).
  discriminate E'.
Qed.

(** [NUMBER\s*\(\d+,\s*0\)] matches [NUMBER(p,s)] only for [s] = 0. *)
Lemma number_p0_only_zero p s :
  forallb is_digit p = true -> digits s = true ->
  text_eqb s (T "0") = false ->
  is_some (re_match no_flags number_p0_re (number2 p s)) = false.
Proof.
  intros Hp Hs Hz. apply no_match. intros st' H.
  destruct (digits_parts s Hs) as (Hne & Hds).
  unfold number_p0_re in H. cbn [cat] in H.
  apply (number_head_read _ (MState None (number2 p s) []) st'
           (p ++ ","%char :: s ++ [")"%char]) eq_refl) in H.
  destruct H as (mid & d & Hd & E & H).
  apply in_ms_cat in H. destruct H as (m5 & H5 & H).
  apply in_ms_chars in H5. destruct H5 as (x & Ex & Hx).
  apply mem_exact in Hx. subst x. rewrite Ex in E.
  destruct (digits_then p d "," "," (s ++ [")"%char]) (rest m5)
              Hp Hd eq_refl eq_refl E) as (_ & E5).
  apply in_ms_cat in H. destruct H as (m6 & H6 & H).
  apply in_ms_quant in H6. destruct H6 as (w & Ew & _ & _ & Aw).
  destruct s as [|c0 s]; [contradiction|].
  cbn [forallb] in Hds. apply andb_prop in Hds. destruct Hds as (Hc0 & Hds).
  rewrite <- E5 in Ew. cbn [app] in Ew. symmetry in Ew.
  destruct (spaces_before_nonspace _ _ _ _ Aw Ew (digit_not_space c0 Hc0))
    as (_ & E6).
  apply in_ms_cat in H. destruct H as (m7 & H7 & H).
  apply in_ms_chars in H7. destruct H7 as (z & Ez & Hz').
  apply mem_exact in Hz'. subst z.
  apply in_ms_chars in H. destruct H as (y & Ey & Hy).
  apply mem_exact in Hy. subst y.
  rewrite E6, Ey in Ez. injection Ez as -> Ez.
  destruct s as [|c1 s].
  - discriminate Hz.
  - injection Ez as -> _. cbn [forallb] in Hds. discriminate Hds.
Qed.

Lemma forallb_digit_mem d :
  forallb is_digit d = true -> forallb (cset_mem no_flags CDigit) d = true.
Proof. exact (fun H => H). Qed.

Lemma number_p0_zero p :
  digits p = true ->
  is_some (re_match no_flags number_p0_re (number2 p (T "0"))) = true.
Proof.
  intros Hp. destruct (digits_parts p Hp) as (Hne & Hd).
  apply can_match with (s' := []).
  unfold number_p0_re, number2. cbn [cat].
  eapply can_cat; [apply can_lit_exact|].
  eapply can_cat; [apply (can_quant no_flags CSpace 0 None true []);
                   [reflexivity|simpl; lia|exact Logic.I]|].
  cbn [app].
  eapply can_cat; [apply can_chars; reflexivity|].
  eapply can_cat; [apply (can_quant no_flags CDigit 1 None true p);
                   [exact Hd| |exact Logic.I]|].
  { destruct p; [contradiction|simpl; lia]. }
  eapply can_cat; [apply can_chars; reflexivity|].
  eapply can_cat; [apply (can_quant no_flags CSpace 0 None true []);
                   [reflexivity|simpl; lia|exact Logic.I]|].
  cbn [app T list_ascii_of_string].
  eapply can_cat; [apply can_chars; reflexivity|].
  apply can_chars. reflexivity.
Qed.

Lemma number_ps_any p s :
  digits p = true -> digits s = true ->
  is_some (re_match no_flags number_ps_re (number2 p s)) = true.
Proof.
  intros Hp Hs. destruct (digits_parts p Hp) as (Hne & Hd).
  destruct (digits_parts s Hs) as (Hnes & Hds).
  apply can_match with (s' := []).
  unfold number_ps_re, number2. cbn [cat].
  eapply can_cat; [apply can_lit_exact|].
  eapply can_cat; [apply (can_quant no_flags CSpace 0 None true []);
                   [reflexivity|simpl; lia|exact Logic.I]|].
  cbn [app].
  eapply can_cat; [apply can_chars; reflexivity|].
  eapply can_cat; [apply (can_quant no_flags CDigit 1 None true p);
                   [exact Hd| |exact Logic.I]|].
  { destruct p; [contradiction|simpl; lia]. }
  eapply can_cat; [apply can_chars; reflexivity|].
  eapply can_cat; [apply (can_quant no_flags CSpace 0 None true []);
                   [reflexivity|simpl; lia|exact Logic.I]|].
  cbn [app].
  eapply can_cat; [apply (can_quant no_flags CDigit 1 None true s);
                   [exact Hds| |exact Logic.I]|].
  { destruct s; [contradiction|simpl; lia]. }
  apply can_chars. reflexivity.
Qed.

Lemma number_text_fixed X :
  no_space X = true -> upper X = X ->
  re_sub no_flags char_byte_re [TText (T "("); TGroup 1; TText (T ")")]
    (upper X) = X.
Proof.
  intros Hs Hu. rewrite Hu. now apply char_byte_sub_no_space.
Qed.

Lemma number2_plain p s :
  forallb is_digit p = true -> forallb is_digit s = true ->
  no_space (number2 p s) = true /\ upper (number2 p s) = number2 p s.
Proof.
  intros Hp Hs. unfold number2. split.
  - rewrite no_space_app. change (no_space (T "NUMBER")) with true.
    change ("("%char :: p ++ ","%char :: s ++ [")"%char])
      with (["("%char] ++ p ++ [","%char] ++ s ++ [")"%char]).
    rewrite !no_space_app, (no_space_digits p Hp), (no_space_digits s Hs).
    reflexivity.
  - change ("("%char :: p ++ ","%char :: s ++ [")"%char])
      with (["("%char] ++ p ++ [","%char] ++ s ++ [")"%char]).
    rewrite !upper_app, (upper_digits p Hp), (upper_digits s Hs). reflexivity.
Qed.

Lemma number1_plain p :
  forallb is_digit p = true ->
  no_space (number1 p) = true /\ upper (number1 p) = number1 p.
Proof.
  intros Hp. unfold number1. split.
  - rewrite no_space_app. change (no_space (T "NUMBER")) with true.
    change ("("%char :: p ++ [")"%char]) with (["("%char] ++ p ++ [")"%char]).
    rewrite !no_space_app, (no_space_digits p Hp). reflexivity.
  - change ("("%char :: p ++ [")"%char]) with (["("%char] ++ p ++ [")"%char]).
    rewrite !upper_app, (upper_digits p Hp). reflexivity.
Qed.

(** [NUMBER(p,s)] is INTEGER for the scale 0 and REAL for any other
    scale; [NUMBER(p)] is INTEGER. *)
Lemma map_number2 p s :
  digits p = true -> digits s = true ->
  map_oracle_type (number2 p s)
  = if text_eqb s (T "0") then T "INTEGER" else T "REAL".
Proof.
  intros Hp Hs.
  destruct (digits_parts p Hp) as (_ & Hdp).
  destruct (digits_parts s Hs) as (_ & Hds).
  destruct (number2_plain p s Hdp Hds) as (Hns & Hup).
  unfold map_oracle_type. rewrite (number_text_fixed _ Hns Hup).
  destruct (text_eqb s (T "0")) eqn:Ez.
  - apply CharFacts.text_eqb_eq in Ez. subst s.
    now rewrite (number_p0_zero p Hp).
  - now rewrite (number_p0_only_zero p s Hdp Hs Ez), (number_ps_any p s Hp Hs).
Qed.

Lemma map_number1 p :
  digits p = true -> map_oracle_type (number1 p) = T "INTEGER".
Proof.
  intros Hp. destruct (digits_parts p Hp) as (_ & Hdp).
  destruct (number1_plain p Hdp) as (Hns & Hup).
  unfold map_oracle_type. rewrite (number_text_fixed _ Hns Hup).
  rewrite (number_ps_not_number1 p Hdp).
  destruct (is_some (re_match no_flags number_p0_re (number1 p)));
    [reflexivity|].
  destruct (is_some (re_match no_flags number_p_re (number1 p)));
    reflexivity.
Qed.

End NumberFacts.

(* ================================================================== *)
(** ** Further facts: the type table as a whole *)

Module TypeFacts.
Import Chars Re Ddl Spec Reference ReFacts WsFacts HeaderFacts LoopFacts.

Lemma map_listed t :
  no_space t = true -> listed_type (upper t) = true ->
  storage_class (map_oracle_type t).
Proof.
  intros Hs Hl. unfold map_oracle_type, storage_class.
  rewrite char_byte_sub_no_space by now rewrite no_space_upper.
  unfold listed_type in Hl.
  repeat match goal with
         | |- context [if ?b then _ else _] =>
             destruct b eqn:?; [now auto|]
         end.
  repeat match goal with
         | H : _ || _ = false |- _ =>
             apply orb_false_elim in H; destruct H
         end.
  repeat match goal with
         | H : _ = false |- _ => rewrite H in Hl; clear H
         end.
  discriminate Hl.
Qed.

Lemma storage_class_fixed t :
  storage_class t -> map_oracle_type t = t.
Proof.
  intros [->|[->|[->| ->]]]; vm_compute; reflexivity.
Qed.

Lemma map_oracle_type_settles t :
  no_space t = true ->
  (storage_class (map_oracle_type t) \/ map_oracle_type t = upper t)
  /\ map_oracle_type (map_oracle_type t) = map_oracle_type t.
Proof.
  intros Hs. destruct (listed_type (upper t)) eqn:Hl.
  - pose proof (map_listed t Hs Hl) as Hc. split; [now left|].
    now apply storage_class_fixed.
  - pose proof (map_oracle_type_unlisted t Hs Hl) as E. split; [now right|].
    rewrite E, map_oracle_type_upper. exact E.
Qed.

End TypeFacts.

(* ================================================================== *)
(** ** Further facts: the header of a well-formed statement *)

Module HeaderParts.
Import Chars Re Ddl Spec Reference ReFacts WsFacts HeaderFacts LoopFacts
  ParenFacts ExtractFacts MatchIntro.

Lemma mem_open c : cset_mem I (CChr "(") c = true -> c = "("%char.
Proof. each_ascii c; vm_compute; intros H; try discriminate; reflexivity. Qed.

Lemma space_not_word c : is_space c = true -> is_word c = false.
Proof. each_ascii c; vm_compute; intros H; try discriminate; reflexivity. Qed.

Lemma space_not_dquote c : is_space c = true -> eqc c dquote = false.
Proof. each_ascii c; vm_compute; intros H; try discriminate; reflexivity. Qed.

Lemma word_forall w :
  forallb (cset_mem I ident_cs) w = true -> forallb is_word w = true.
Proof.
  intros H. rewrite <- H. clear. induction w as [|a w IH]; [reflexivity|].
  cbn [forallb]. now rewrite IH, ident_is_word.
Qed.

(** The parts of a header match: keyword, whitespace, the two optionally
    quoted identifiers around a dot, whitespace, opening parenthesis. *)
Lemma header_match_parts st st' :
  In st' (ms I header_re st) ->
  exists v w1 wq wi wq2 wq3 wi2 wq4 ws,
    rest st = v ++ w1 ++ wq ++ wi ++ wq2 ++ "."%char :: wq3 ++ wi2 ++ wq4
              ++ ws ++ "("%char :: rest st'
    /\ length v = 12
    /\ w1 <> [] /\ forallb is_space w1 = true
    /\ opt_quote wq /\ wi <> [] /\ forallb is_word wi = true
    /\ opt_quote wq2 /\ opt_quote wq3
    /\ wi2 <> [] /\ forallb is_word wi2 = true
    /\ opt_quote wq4 /\ forallb is_space ws = true
    /\ lookup_cap 2 (caps st') = Some wi2.
Proof.
  unfold header_re. cbn [cat]. intros H.
  apply in_ms_cat in H. destruct H as (m1 & H1 & H).
  apply in_ms_lit in H1. destruct H1 as (v & Ev & Hv).
  apply Forall2_length_eq in Hv.
  apply in_ms_cat in H. destruct H as (m2 & H2 & H).
  apply in_ms_quant in H2. destruct H2 as (w1 & E1 & L1 & _ & A1).
  apply in_ms_cat in H. destruct H as (m3 & H3 & H).
  apply in_ms_quant in H3. destruct H3 as (wq & Eq & _ & Lq & Aq).
  apply in_ms_cat in H. destruct H as (m4 & H4 & H).
  apply group_quant in H4. destruct H4 as (wi & Ei & Li & Ai & _).
  apply in_ms_cat in H. destruct H as (m5 & H5 & H).
  apply in_ms_quant in H5. destruct H5 as (wq2 & Eq2 & _ & Lq2 & Aq2).
  apply in_ms_cat in H. destruct H as (m6 & H6 & H).
  apply in_ms_chars in H6. destruct H6 as (c & Ec & Hc).
  apply mem_dot in Hc. subst c.
  apply in_ms_cat in H. destruct H as (m7 & H7 & H).
  apply in_ms_quant in H7. destruct H7 as (wq3 & Eq3 & _ & Lq3 & Aq3).
  apply in_ms_cat in H. destruct H as (m8 & H8 & H).
  apply group_quant in H8. destruct H8 as (wi2 & Ei2 & Li2 & Ai2 & Ec8).
  apply in_ms_cat in H. destruct H as (m9 & H9 & H).
  pose proof (quant_caps _ _ _ _ _ _ _ H9) as Ec9.
  apply in_ms_quant in H9. destruct H9 as (wq4 & Eq4 & _ & Lq4 & Aq4).
  apply in_ms_cat in H. destruct H as (m10 & H10 & H).
  pose proof (quant_caps _ _ _ _ _ _ _ H10) as Ec10.
  apply in_ms_quant in H10. destruct H10 as (ws & Es & _ & _ & As).
  pose proof (chars_caps _ _ _ _ H) as Ec11.
  apply in_ms_chars in H. destruct H as (c & Ep & Hc).
  apply mem_open in Hc. subst c.
  exists v, w1, wq, wi, wq2, wq3, wi2, wq4, ws.
  split; [now rewrite Ev, E1, Eq, Ei, Eq2, Ec, Eq3, Ei2, Eq4, Es, Ep|].
  split; [now rewrite <- Hv|].
  split; [destruct w1; [simpl in L1; lia|discriminate]|].
  split; [exact A1|].
  split; [now apply opt_quote_intro|].
  split; [destruct wi; [simpl in Li; lia|discriminate]|].
  split; [now apply word_forall|].
  split; [now apply opt_quote_intro|].
  split; [now apply opt_quote_intro|].
  split; [destruct wi2; [simpl in Li2; lia|discriminate]|].
  split; [now apply word_forall|].
  split; [now apply opt_quote_intro|].
  split; [exact As|].
  rewrite Ec11, Ec10, Ec9, Ec8. cbn [lookup_cap Nat.eqb]. reflexivity.
Qed.

Lemma oq_opt b : opt_quote (oq b).
Proof. destruct b; [now right|now left]. Qed.

Lemma optq_all wq : opt_quote wq -> forallb (fun c => eqc c dquote) wq = true.
Proof. intros [->| ->]; reflexivity. Qed.

Lemma hd_fails_optq P wq X :
  opt_quote wq -> P dquote = false -> hd_fails P X -> hd_fails P (wq ++ X).
Proof. intros [->| ->] Hq HX; [exact HX|exact Hq]. Qed.

Lemma ident_parts w : ident w = true -> w <> [] /\ forallb is_word w = true.
Proof.
  unfold ident. intros H. apply andb_prop in H. destruct H as (Hn & H).
  split; [|exact H]. destruct w; discriminate.
Qed.

Lemma blank_parts w : blank w = true -> w <> [] /\ forallb is_space w = true.
Proof.
  unfold blank. intros H. apply andb_prop in H. destruct H as (Hn & H).
  split; [|exact H]. destruct w; discriminate.
Qed.

Lemma header_text_app kw sp q1 schema q2 q3 table q4 sp' R :
  header_text kw sp q1 schema q2 q3 table q4 sp' ++ R
  = kw ++ sp ++ oq q1 ++ schema ++ oq q2 ++ "."%char :: oq q3 ++ table ++ oq q4
       ++ sp' ++ "("%char :: R.
Proof.
  unfold header_text. repeat (rewrite <- ?app_assoc; cbn [app]). reflexivity.
Qed.

(** On such a text every header match ends behind the opening
    parenthesis and captures the table name. *)
Lemma wf_header_unique kw sp q1 schema q2 q3 table q4 sp' R st st' :
  same_ci kw (T "CREATE TABLE") = true -> blank sp = true ->
  ident schema = true -> ident table = true ->
  forallb is_space sp' = true ->
  rest st = header_text kw sp q1 schema q2 q3 table q4 sp' ++ R ->
  In st' (ms I header_re st) ->
  rest st' = R /\ lookup_cap 2 (caps st') = Some table.
Proof.
  intros Hkw Hsp Hschema Htable Hsp' E H.
  destruct (blank_parts sp Hsp) as (Nsp & Asp).
  destruct (ident_parts schema Hschema) as (Nsc & Asc).
  destruct (ident_parts table Htable) as (Nta & Ata).
  unfold same_ci in Hkw. apply andb_prop in Hkw. destruct Hkw as (Lkw & _).
  apply Nat.eqb_eq in Lkw. change (length (T "CREATE TABLE")) with 12 in Lkw.
  apply header_match_parts in H.
  destruct H as (v & w1 & wq & wi & wq2 & wq3 & wi2 & wq4 & ws & Er & Lv
                 & Nw1 & Aw1 & Oq & Nwi & Awi & Oq2 & Oq3 & Nwi2 & Awi2 & Oq4
                 & Aws & Hcap).
  rewrite E, header_text_app in Er.
  destruct (app_same_length _ _ _ _ (eq_trans Lkw (eq_sym Lv)) Er) as (_ & E1).
  (* the whitespace after the keyword *)
  apply span_unique with (P := is_space) in E1;
    [|exact Asp|exact Aw1
     |apply hd_fails_optq; [apply oq_opt|reflexivity|];
      apply (hd_fails_run1 is_word); [assumption|assumption|exact word_not_space]
     |apply hd_fails_optq; [exact Oq|reflexivity|];
      apply (hd_fails_run1 is_word); [assumption|assumption|exact word_not_space]].
  destruct E1 as (_ & E2).
  (* the quote before the schema *)
  apply span_unique with (P := fun c => eqc c dquote) in E2;
    [|apply optq_all, oq_opt|now apply optq_all
     |apply (hd_fails_run1 is_word); [assumption|assumption|exact word_not_dquote]
     |apply (hd_fails_run1 is_word); [assumption|assumption|exact word_not_dquote]].
  destruct E2 as (_ & E3).
  (* the schema *)
  apply span_unique with (P := is_word) in E3;
    [|exact Asc|exact Awi
     |apply hd_fails_optq; [apply oq_opt|reflexivity|reflexivity]
     |apply hd_fails_optq; [exact Oq2|reflexivity|reflexivity]].
  destruct E3 as (_ & E4).
  (* the quote behind the schema, and the dot *)
  apply span_unique with (P := fun c => eqc c dquote) in E4;
    [|apply optq_all, oq_opt|now apply optq_all|reflexivity|reflexivity].
  destruct E4 as (_ & E5). injection E5 as E6.
  (* the quote before the table *)
  apply span_unique with (P := fun c => eqc c dquote) in E6;
    [|apply optq_all, oq_opt|now apply optq_all
     |apply (hd_fails_run1 is_word); [assumption|assumption|exact word_not_dquote]
     |apply (hd_fails_run1 is_word); [assumption|assumption|exact word_not_dquote]].
  destruct E6 as (_ & E7).
  (* the table *)
  apply span_unique with (P := is_word) in E7;
    [|exact Ata|exact Awi2
     |apply hd_fails_optq; [apply oq_opt|reflexivity|];
      apply (hd_fails_run is_space); [assumption|exact space_not_word|reflexivity]
     |apply hd_fails_optq; [exact Oq4|reflexivity|];
      apply (hd_fails_run is_space); [assumption|exact space_not_word|reflexivity]].
  destruct E7 as (Et & E8).
  (* the quote behind the table *)
  apply span_unique with (P := fun c => eqc c dquote) in E8;
    [|apply optq_all, oq_opt|now apply optq_all
     |apply (hd_fails_run is_space); [assumption|exact space_not_dquote|reflexivity]
     |apply (hd_fails_run is_space); [assumption|exact space_not_dquote|reflexivity]].
  destruct E8 as (_ & E9).
  (* the whitespace before the parenthesis *)
  apply span_unique with (P := is_space) in E9;
    [|exact Hsp'|exact Aws|reflexivity|reflexivity].
  destruct E9 as (_ & E10). injection E10 as E11.
  split; [now symmetry|]. now rewrite Hcap, Et.
Qed.

Lemma starts_with_ci_Forall2 : forall p s,
  length s = length p -> starts_with_ci p s = true ->
  Forall2 (fun x c => cset_mem I (CChr x) c = true) p s.
Proof.
  induction p as [|x p IH]; intros [|c s] Hl H; try discriminate; [constructor|].
  cbn [starts_with_ci] in H. apply andb_prop in H. destruct H as (Hc & H).
  constructor; [exact Hc|]. apply IH; [simpl in Hl; lia|exact H].
Qed.

Lemma word_mem w :
  forallb is_word w = true -> forallb (cset_mem I ident_cs) w = true.
Proof.
  intros H. rewrite <- H. clear. induction w as [|a w IH]; [reflexivity|].
  cbn [forallb]. now rewrite IH, ident_is_word.
Qed.

Lemma can_oq b r : can I q_opt (oq b ++ r) r.
Proof.
  apply can_quant; destruct b; try reflexivity; simpl; lia.
Qed.

(** On such a text the header pattern does match. *)
Lemma wf_header_can kw sp q1 schema q2 q3 table q4 sp' R :
  same_ci kw (T "CREATE TABLE") = true -> blank sp = true ->
  ident schema = true -> ident table = true ->
  forallb is_space sp' = true ->
  can I header_re (header_text kw sp q1 schema q2 q3 table q4 sp' ++ R) R.
Proof.
  intros Hkw Hsp Hschema Htable Hsp'.
  destruct (blank_parts sp Hsp) as (Nsp & Asp).
  destruct (ident_parts schema Hschema) as (Nsc & Asc).
  destruct (ident_parts table Htable) as (Nta & Ata).
  unfold same_ci in Hkw. apply andb_prop in Hkw. destruct Hkw as (Lkw & Ckw).
  apply Nat.eqb_eq in Lkw.
  rewrite header_text_app. unfold header_re. cbn [cat].
  eapply can_cat; [apply can_lit, starts_with_ci_Forall2; assumption|].
  eapply can_cat; [apply (can_quant I CSpace 1 None true sp);
                   [exact Asp| |exact Logic.I]|].
  { destruct sp; [contradiction|simpl; lia]. }
  eapply can_cat; [apply can_oq|].
  eapply can_cat; [apply can_group, (can_quant I ident_cs 1 None true schema);
                   [now apply word_mem| |exact Logic.I]|].
  { destruct schema; [contradiction|simpl; lia]. }
  eapply can_cat; [apply can_oq|].
  eapply can_cat; [apply can_chars; reflexivity|].
  eapply can_cat; [apply can_oq|].
  eapply can_cat; [apply can_group, (can_quant I ident_cs 1 None true table);
                   [now apply word_mem| |exact Logic.I]|].
  { destruct table; [contradiction|simpl; lia]. }
  eapply can_cat; [apply can_oq|].
  eapply can_cat; [apply (can_quant I CSpace 0 None true sp');
                   [exact Hsp'|lia|exact Logic.I]|].
  apply can_chars. reflexivity.
Qed.

Lemma slice_prefix n s : slice (Z.of_nat 0) (Z.of_nat n) s = firstn n s.
Proof.
  unfold slice, clamp_index.
  destruct (Z.ltb_spec (Z.of_nat 0) 0); [lia|].
  destruct (Z.ltb_spec (Z.of_nat n) 0); [lia|].
  replace (Z.to_nat (Z.min (Z.of_nat 0) (Z.of_nat (length s)))) with 0 by lia.
  cbn [skipn].
  destruct (Nat.le_gt_cases n (length s)).
  - f_equal. lia.
  - rewrite (firstn_all2 (n := n)) by lia. apply firstn_all2. lia.
Qed.

Lemma search_from_hit fl r p s i st' l :
  ms fl r (MState p s []) = st' :: l ->
  search_from fl r p s i
  = Some (RMatch i (i + (length s - length (rest st'))) (caps st')).
Proof. intros H. destruct s; simpl; rewrite H; reflexivity. Qed.

(** The block of a well-formed statement at the start of the text. *)
Lemma extract_well_formed kw sp q1 schema q2 q3 table q4 sp' body tail :
  same_ci kw (T "CREATE TABLE") = true -> blank sp = true ->
  ident schema = true -> ident table = true ->
  forallb is_space sp' = true -> bal 0 body = true ->
  extract_create_table_block
    (header_text kw sp q1 schema q2 q3 table q4 sp' ++ body
       ++ ")"%char :: tail)
  = Some (table,
          header_text kw sp q1 schema q2 q3 table q4 sp' ++ body ++ [")"%char]).
Proof.
  intros Hkw Hsp Hschema Htable Hsp' Hbal.
  set (hd := header_text kw sp q1 schema q2 q3 table q4 sp').
  set (R := body ++ ")"%char :: tail).
  destruct (wf_header_can kw sp q1 schema q2 q3 table q4 sp' R
              Hkw Hsp Hschema Htable Hsp' (MState None (hd ++ R) []) eq_refl)
    as (x & Hx & _).
  destruct (ms I header_re (MState None (hd ++ R) [])) as [|st' l] eqn:Ems;
    [contradiction|].
  assert (Hin : In st' (ms I header_re (MState None (hd ++ R) [])))
    by (rewrite Ems; now left).
  destruct (wf_header_unique kw sp q1 schema q2 q3 table q4 sp' R
              (MState None (hd ++ R) []) st'
              Hkw Hsp Hschema Htable Hsp' eq_refl Hin) as (Erest & Hcap).
  unfold extract_create_table_block, re_search.
  rewrite (search_from_hit I header_re None (hd ++ R) 0 st' l Ems).
  cbn [m_start m_end m_caps group Nat.add]. unfold group. cbn [m_caps].
  rewrite Hcap, Erest. f_equal. f_equal.
  rewrite length_app. replace (length hd + length R - length R) with (length hd) by lia.
  assert (Hscan : scan_block 1 R = S (length body)).
  { unfold R. rewrite (scan_block_bal body 0 0 _ Hbal). cbn [scan_block].
    destruct tail; cbn; lia. }
  rewrite skipn_app, skipn_all, Nat.sub_diag. cbn [app skipn].
  rewrite Hscan.
  change 0%Z with (Z.of_nat 0). change (0 + 0) with 0.
  rewrite slice_prefix, firstn_app_2. unfold R.
  f_equal. change (")"%char :: tail) with ([")"%char] ++ tail).
  rewrite app_assoc.
  replace (S (length body)) with (length (body ++ [")"%char]) + 0)
    by (rewrite length_app; cbn; lia).
  rewrite firstn_app_2. cbn. now rewrite app_nil_r.
Qed.

End HeaderParts.

(* ================================================================== *)
(** ** Further properties of the program *)

Module Extras.
Import Chars Re Ddl Spec Samples Reference MoreSamples ReFacts WsFacts
  HeaderFacts LoopFacts SplitFacts ShrinkFacts PreFacts ParenFacts ItemFacts
  CharFacts ExtractFacts MatchIntro NumberFacts TypeFacts HeaderParts.

(** X1.  The error text is returned exactly when the header pattern
    matches nowhere in the preprocessed text: a statement that was converted
    is never mistaken for the error. *)
Theorem error_text_iff_no_header sql :
  convert_oracle_to_sqlite sql = error_sentinel
  <-> re_search I header_re (preprocess sql) = None.
Proof.
  split; [apply sentinel_only_without_header|].
  intros H. unfold convert_oracle_to_sqlite, extract_create_table_block.
  now rewrite H.
Qed.

(** X2.  The preprocessed text has no whitespace but single spaces
    between other characters, holds no character that was not in the input
    (apart from the space), and is not longer than the input. *)
Theorem preprocess_normal_form s :
  (forall c, In c (preprocess s) -> is_space c = true -> c = " "%char)
  /\ contains (T "  ") (preprocess s) = false
  /\ strip (preprocess s) = preprocess s
  /\ (forall c, In c (preprocess s) -> In c s \/ c = " "%char)
  /\ length (preprocess s) <= length s.
Proof.
  split; [|split; [|split; [|split]]].
  - intros c. apply squeezed_spaces, preprocess_squeezed.
  - apply squeezed_no_double, preprocess_squeezed.
  - unfold preprocess. apply strip_idem.
  - intros c. apply preprocess_chars.
  - apply preprocess_length.
Qed.

(** X3.  A second run of the preprocessing stage changes its input
    exactly when one of the two comment patterns or the NOVALIDATE pattern
    still matches there, and then it makes the text shorter. *)
Theorem second_preprocess_run s :
  (preprocess (preprocess s) = preprocess s
   <-> re_search M line_comment_re (preprocess s) = None
       /\ re_search S_ block_comment_re (preprocess s) = None
       /\ re_search I novalidate_re (preprocess s) = None)
  /\ (preprocess (preprocess s) <> preprocess s ->
      length (preprocess (preprocess s)) < length (preprocess s)).
Proof.
  split; [apply preprocess_settled_iff|].
  intros Hne. apply preprocess_shrinks.
  destruct (re_search M line_comment_re (preprocess s)) eqn:E1;
    [left; discriminate|].
  destruct (re_search S_ block_comment_re (preprocess s)) eqn:E2;
    [right; left; discriminate|].
  destruct (re_search I novalidate_re (preprocess s)) eqn:E3;
    [right; right; discriminate|].
  elim Hne. apply preprocess_settled_iff. now rewrite E1, E2, E3.
Qed.

(** X4.  The depth scan of the block extractor, started behind the
    opening parenthesis, stops right behind the parenthesis that closes it
    when the text in between is balanced, whatever follows. *)
Theorem block_scan_stops_at_closing_paren body tail :
  bal 0 body = true ->
  scan_block 1 (body ++ ")"%char :: tail) = S (length body).
Proof.
  intros H. rewrite (scan_block_bal body 0 0 _ H).
  cbn [scan_block]. destruct tail; cbn; lia.
Qed.

Lemma block_scan_stops_at_closing_paren_witness :
  scan_block 1 (T "ID NUMBER(10), C NUMBER CHECK (C IN (1,2))"
                ++ ")"%char :: T " TABLESPACE USERS (x)")
  = 43.
Proof.
  apply (block_scan_stops_at_closing_paren
           (T "ID NUMBER(10), C NUMBER CHECK (C IN (1,2))")
           (T " TABLESPACE USERS (x)")).
  reflexivity.
Defined.

(** X5.  When no closing parenthesis follows, the depth scan runs to the
    end of the text: an unterminated statement is taken whole. *)
Theorem block_scan_unterminated d s :
  no_close s = true -> scan_block (S d) s = length s.
Proof.
  intros H. apply scan_block_no_close. intros Hin.
  unfold no_close in H. rewrite forallb_forall in H.
  apply H in Hin. discriminate Hin.
Qed.

Lemma block_scan_unterminated_witness :
  scan_block 1 (T "ID NUMBER, NAME VARCHAR2(10") = 27.
Proof.
  apply (block_scan_unterminated 0 (T "ID NUMBER, NAME VARCHAR2(10")).
  reflexivity.
Defined.

(** X6.  Splitting with the comma pattern loses nothing: the pieces
    joined by commas are the text that was split. *)
Theorem split_join_round_trip s :
  join (T ",") (re_split no_flags comma_re s) = s.
Proof. rewrite re_split_commas. apply (join_split_commas s []). Qed.

(** X7.  On a text whose parentheses are balanced and do not nest, the
    comma pattern cuts exactly at the commas outside parentheses, as a
    depth counter would. *)
Theorem shallow_split_is_top_level s :
  shallow 0 s = true -> re_split no_flags comma_re s = split_top 0 [] s.
Proof. intros H. rewrite re_split_commas. now apply split_commas_shallow. Qed.

Lemma shallow_split_is_top_level_witness :
  re_split no_flags comma_re (T "ID NUMBER(10,2), NAME VARCHAR2(50), D DATE")
  = [T "ID NUMBER(10,2)"; T " NAME VARCHAR2(50)"; T " D DATE"].
Proof.
  rewrite (shallow_split_is_top_level
             (T "ID NUMBER(10,2), NAME VARCHAR2(50), D DATE"));
    reflexivity.
Defined.

(** X8.  Without a pending key (no ALTER TABLE statement, or an empty
    column list) no item is rewritten to AUTOINCREMENT and no PRIMARY KEY
    clause is added: the statement holds the plain form of every item, in
    order, the empty ones left out. *)
Theorem no_pending_key_all_plain sql name block :
  truthy (extract_primary_key (preprocess sql)) = false ->
  extract_create_table_block (preprocess sql) = Some (name, block) ->
  convert_oracle_to_sqlite sql
  = statement name
      (filter nonempty (map plain_item (split_items (unquote block)))).
Proof.
  intros Hpk Hblock. unfold convert_oracle_to_sqlite.
  pose proof (extract_block_nonempty _ _ _ Hblock) as Hlen.
  rewrite Hblock.
  destruct block as [|b block]; [simpl in Hlen; lia|].
  unfold rewrite_items. rewrite (fold_loop_no_key _ _ [] Hpk).
  unfold assemble, statement. cbn [primary_key_field cleaned_items app].
  destruct (extract_primary_key (preprocess sql)) as [[|c pk]|];
    try reflexivity. discriminate Hpk.
Qed.

Lemma no_pending_key_all_plain_witness :
  convert_oracle_to_sqlite emp_input
  = statement (T "EMP")
      [T "ID INTEGER NOT NULL"; T "NAME TEXT"; T "CHECK (NAME IS NOT NULL)"].
Proof.
  rewrite (no_pending_key_all_plain emp_input (T "EMP") emp_input);
    vm_compute; reflexivity.
Defined.

(** X9.  The first item that is a sequence-backed column named like the
    pending key becomes [<column> INTEGER PRIMARY KEY AUTOINCREMENT]; every
    other item, also a later column of that kind, keeps its plain form, and
    no PRIMARY KEY clause is added. *)
Theorem first_sequence_column_takes_key sql pk name block pre item post :
  extract_primary_key (preprocess sql) = Some pk ->
  extract_create_table_block (preprocess sql) = Some (name, block) ->
  split_items (unquote block) = pre ++ item :: post ->
  forallb (fun it => negb (claims_key pk it)) pre = true ->
  claims_key pk item = true ->
  convert_oracle_to_sqlite sql
  = statement name
      (filter nonempty (map plain_item pre)
       ++ [column_name item ++ T " INTEGER PRIMARY KEY AUTOINCREMENT"]
       ++ filter nonempty (map plain_item post)).
Proof.
  intros Hpk Hblock Hitems Hpre Hitem. unfold convert_oracle_to_sqlite.
  pose proof (extract_block_nonempty _ _ _ Hblock) as Hlen.
  rewrite Hblock, Hpk.
  destruct block as [|b block]; [simpl in Hlen; lia|].
  rewrite Hitems, (rewrite_items_first_taker pk pre item post Hpre Hitem).
  reflexivity.
Qed.

Lemma first_sequence_column_takes_key_witness :
  convert_oracle_to_sqlite two_sequences_input
  = statement (T "T")
      [T "NAME TEXT"; T "ID INTEGER PRIMARY KEY AUTOINCREMENT";
       T "id INTEGER DEFAULT S2.NEXTVAL"].
Proof.
  rewrite (first_sequence_column_takes_key two_sequences_input (T "ID") (T "T")
             (T "CREATE TABLE S.T (NAME VARCHAR2(10), ID NUMBER(10) DEFAULT SEQ.NEXTVAL, id NUMBER DEFAULT S2.NEXTVAL)")
             [T "NAME VARCHAR2(10)"] (T "ID NUMBER(10) DEFAULT SEQ.NEXTVAL")
             [T "id NUMBER DEFAULT S2.NEXTVAL"]);
    vm_compute; reflexivity.
Defined.

(** X10.  Every item the loop keeps is non-empty, does not end in a comma
    and does not start with whitespace; the pending key after the loop is
    the one before it or none. *)
Theorem kept_items_are_tidy pk items :
  Forall tidy (cleaned_items (rewrite_items pk items))
  /\ (primary_key_field (rewrite_items pk items) = pk
      \/ primary_key_field (rewrite_items pk items) = None).
Proof. apply (fold_loop_tidy items (LoopState pk [])). constructor. Qed.

(** X11.  A key column that the ALTER TABLE statement names in double
    quotes matches no column of the block, whose quotes have been removed:
    no column is rewritten to AUTOINCREMENT, and the quoted key comes out in
    the trailing PRIMARY KEY clause. *)
Theorem quoted_key_never_autoincrement sql pk name block :
  extract_primary_key (preprocess sql) = Some pk ->
  no_dquote pk = false ->
  extract_create_table_block (preprocess sql) = Some (name, block) ->
  convert_oracle_to_sqlite sql
  = statement name
      (filter nonempty (map plain_item (split_items (unquote block)))
       ++ [T "PRIMARY KEY (" ++ pk ++ T ")"]).
Proof.
  intros Hpk Hq Hblock. unfold convert_oracle_to_sqlite.
  pose proof (extract_block_nonempty _ _ _ Hblock) as Hlen.
  rewrite Hblock, Hpk.
  destruct block as [|b block]; [simpl in Hlen; lia|].
  rewrite rewrite_items_plain.
  - destruct pk as [|c pk]; [discriminate|]. reflexivity.
  - apply forallb_forall. intros item Hin. apply negb_true_iff.
    apply quoted_key_unclaimed; [exact Hq|].
    now apply split_items_no_dquote in Hin.
Qed.

Lemma quoted_key_never_autoincrement_witness :
  convert_oracle_to_sqlite quoted_key_input
  = statement (T "T")
      [T "ID INTEGER DEFAULT SEQ.NEXTVAL"; T "NAME TEXT";
       T "PRIMARY KEY (" ++ qt "ID" ++ T ")"].
Proof.
  rewrite (quoted_key_never_autoincrement quoted_key_input (qt "ID") (T "T")
             quoted_key_block);
    vm_compute; reflexivity.
Defined.

(** X12.  When the key column list holds no double quote (or there is
    none), the result holds no double quote at all: table name, columns and
    constraints come out unquoted. *)
Theorem unquoted_key_unquoted_output sql :
  no_dquote (key_text (extract_primary_key (preprocess sql))) = true ->
  no_dquote (convert_oracle_to_sqlite sql) = true.
Proof.
  intros Hpk. unfold convert_oracle_to_sqlite.
  destruct (extract_create_table_block (preprocess sql))
    as [[name block]|] eqn:Hblock; [|reflexivity].
  destruct block as [|b block]; [reflexivity|].
  destruct (extract_results _ _ _ Hblock) as (_ & Hname & _).
  apply word_no_dquote in Hname.
  set (items := split_items (unquote (b :: block))).
  set (pk := extract_primary_key (preprocess sql)) in *.
  assert (Hkept : Forall (fun x => no_dquote x = true)
                    (cleaned_items (rewrite_items pk items))).
  { apply fold_loop_no_dquote; [|constructor].
    apply Forall_forall. intros item Hin.
    now apply split_items_no_dquote in Hin. }
  apply assemble_no_dquote; [exact Hname|exact Hkept|].
  destruct (proj2 (fold_loop_tidy items (LoopState pk []) (Forall_nil _)))
    as [Hk|Hk]; fold (rewrite_items pk items) in Hk; rewrite Hk;
    [exact Hpk|reflexivity].
Qed.

Lemma unquoted_key_unquoted_output_witness :
  no_dquote emp_input = false
  /\ no_dquote (convert_oracle_to_sqlite emp_input) = true.
Proof.
  split; [reflexivity|].
  apply (unquoted_key_unquoted_output emp_input). reflexivity.
Defined.

(** X13.  For a type token without whitespace the result is INTEGER,
    REAL, TEXT or BLOB, or else the token in upper case; mapping the result
    once more changes nothing. *)
Theorem map_oracle_type_settles_at_once t :
  no_space t = true ->
  (storage_class (map_oracle_type t) \/ map_oracle_type t = upper t)
  /\ map_oracle_type (map_oracle_type t) = map_oracle_type t.
Proof. apply map_oracle_type_settles. Qed.

Lemma map_oracle_type_settles_at_once_witness :
  (storage_class (map_oracle_type (T "Varchar2(30)"))
   \/ map_oracle_type (T "Varchar2(30)") = upper (T "Varchar2(30)"))
  /\ map_oracle_type (map_oracle_type (T "Varchar2(30)"))
     = map_oracle_type (T "Varchar2(30)").
Proof.
  apply (map_oracle_type_settles_at_once (T "Varchar2(30)")). reflexivity.
Defined.

(** X14.  For decimal digit strings [p] and [s], NUMBER(p,s) maps to
    INTEGER when [s] is the single digit 0 and to REAL for every other
    scale (also 00), and NUMBER(p) maps to INTEGER. *)
Theorem number_scale_decides p s :
  digits p = true -> digits s = true ->
  map_oracle_type (T "NUMBER(" ++ p ++ T "," ++ s ++ T ")")
  = (if text_eqb s (T "0") then T "INTEGER" else T "REAL")
  /\ map_oracle_type (T "NUMBER(" ++ p ++ T ")") = T "INTEGER".
Proof.
  intros Hp Hs. split.
  - exact (map_number2 p s Hp Hs).
  - exact (map_number1 p Hp).
Qed.

Lemma number_scale_decides_witness :
  map_oracle_type (T "NUMBER(" ++ T "12" ++ T "," ++ T "00" ++ T ")")
  = T "REAL"
  /\ map_oracle_type (T "NUMBER(" ++ T "12" ++ T ")") = T "INTEGER".
Proof.
  apply (number_scale_decides (T "12") (T "00")); reflexivity.
Defined.

(** X15.  When a block is found, the table name is a non-empty run of
    [\w] characters (no quote, no dot, no schema), and the block is a
    stretch of the searched text that starts with CREATE TABLE in some
    case. *)
Theorem found_block_is_part_of_text sql name block :
  extract_create_table_block sql = Some (name, block) ->
  name <> [] /\ forallb is_word name = true
  /\ starts_with_ci (T "CREATE TABLE") block = true
  /\ exists pre post, sql = pre ++ block ++ post.
Proof. apply extract_results. Qed.

Lemma found_block_is_part_of_text_witness :
  T "EMP" <> [] /\ forallb is_word (T "EMP") = true
  /\ starts_with_ci (T "CREATE TABLE") emp_input = true
  /\ exists pre post, emp_input = pre ++ emp_input ++ post.
Proof.
  apply (found_block_is_part_of_text emp_input (T "EMP") emp_input).
  vm_compute. reflexivity.
Defined.

(** X16.  For a text that starts with a well-formed header (CREATE TABLE
    in any case, whitespace, schema and table as identifiers, each with or
    without double quotes, optional whitespace, opening parenthesis),
    goes on with a balanced body and its closing parenthesis, the extractor
    returns the table name and the text up to and with that parenthesis,
    whatever comes behind it. *)
Theorem well_formed_statement_is_extracted
  kw sp q1 schema q2 q3 table q4 sp' body tail :
  same_ci kw (T "CREATE TABLE") = true -> blank sp = true ->
  ident schema = true -> ident table = true ->
  forallb is_space sp' = true -> bal 0 body = true ->
  extract_create_table_block
    (header_text kw sp q1 schema q2 q3 table q4 sp' ++ body
       ++ ")"%char :: tail)
  = Some (table,
          header_text kw sp q1 schema q2 q3 table q4 sp' ++ body ++ [")"%char]).
Proof. apply extract_well_formed. Qed.

Lemma well_formed_statement_is_extracted_witness :
  extract_create_table_block
    (T "create table " ++ qt "HR" ++ T "." ++ qt "EMP"
       ++ T " (ID NUMBER(10,0), C NUMBER CHECK (C IN (1,2))) TABLESPACE USERS (x)")
  = Some (T "EMP",
          T "create table " ++ qt "HR" ++ T "." ++ qt "EMP"
            ++ T " (ID NUMBER(10,0), C NUMBER CHECK (C IN (1,2)))").
Proof.
  apply (well_formed_statement_is_extracted
           (T "create table") (T " ") true (T "HR") true true (T "EMP") true
           (T " ") (T "ID NUMBER(10,0), C NUMBER CHECK (C IN (1,2))")
           (T " TABLESPACE USERS (x)")); reflexivity.
Defined.

End Extras.
